(** * Simple Artefact Registry: route builder and artefact handler

    A shallow embedding of [simple_artefact_registry/__init__.py]:
    [build_urls] (the recursive walk over the artefact configuration) and
    the [ArtefactHandler] methods [get], [put] and [write_error], together
    with the properties of the registry's specification. *)

From Stdlib Require Import ZArith Ascii String DecimalString.
From stdpp Require Import gmap strings list fin_maps.

Local Open Scope string_scope.
Local Open Scope list_scope.

(** ** Python values *)

(** The parsed YAML configuration: scalars and insertion-ordered mappings
    with string keys.  A mapping is kept as its list of items, in order. *)
#[warnings="-register-all"]
Inductive value :=
| VNone
| VStr (s : string)
| VInt (n : Z)
| VDict (items : list (string * value)).

(** A settings dictionary ([str] keys; only membership and lookup are
    used on it, so its order is not kept). *)
Abbreviation settings := (gmap string value).

Inductive exn :=
| HTTPError (status_code : Z)
| KeyError (key : string)
| AttributeError
| RecursionError
| FileNotFoundError
| FileExistsError
| NotADirectoryError
| IsADirectoryError.

(** Computations that may raise. *)
Definition res (A : Type) : Type := exn + A.

Definition ret {A} (a : A) : res A := inr a.
Definition raise {A} (e : exn) : res A := inl e.
Definition bind {A B} (c : res A) (k : A -> res B) : res B :=
  match c with
  | inl e => inl e
  | inr a => k a
  end.

Declare Scope res_scope.
Delimit Scope res_scope with res.
Notation "x <- c ;; k" := (bind c (fun x => k))
  (at level 100, c at next level, right associativity) : res_scope.
Local Open Scope res_scope.

(** [for x in l: s = body(s, x)], stopping at the first exception. *)
Fixpoint for_each {A S} (l : list A) (body : S -> A -> res S) (s : S) : res S :=
  match l with
  | [] => ret s
  | x :: l' => s' <- body s x ;; for_each l' body s'
  end.

(** Computations over a state [S] that may raise: the state at the point
    of the exception is kept. *)
Definition comp (S A : Type) : Type := S -> res A * S.

Definition st_ret {S A} (a : A) : comp S A := fun s => (inr a, s).
Definition st_raise {S A} (e : exn) : comp S A := fun s => (inl e, s).
Definition st_bind {S A B} (c : comp S A) (k : A -> comp S B) : comp S B :=
  fun s =>
    match c s with
    | (inl e, s') => (inl e, s')
    | (inr a, s') => k a s'
    end.
Definition lift {S A} (c : res A) : comp S A := fun s => (c, s).

Declare Scope comp_scope.
Delimit Scope comp_scope with comp.
Notation "x <- c ;; k" := (st_bind c (fun x => k))
  (at level 100, c at next level, right associativity) : comp_scope.

Fixpoint st_for_each {S A B} (l : list A) (body : B -> A -> comp S B) (b : B)
    : comp S B :=
  match l with
  | [] => st_ret b
  | x :: l' => (b' <- body b x ;; st_for_each l' body b')%comp
  end.

(** ** String helpers *)

(** [key.startswith('_')] *)
Definition startswith (p s : string) : bool := String.prefix p s.

(** [s[n:]] *)
Fixpoint str_from (n : nat) (s : string) : string :=
  match n, s with
  | O, _ => s
  | S n', String _ s' => str_from n' s'
  | S _, EmptyString => EmptyString
  end.

(** [str(n)] for an [int]. *)
Definition str_of_int (n : Z) : string := NilZero.string_of_int (Z.to_int n).

(** ** Route builder *)

Record route := Route {
  url : string;
  path : string;
  route_settings : settings;
}.

(** [dict(pairs)]: later pairs replace earlier ones. *)
Definition dict (pairs : list (string * value)) : settings :=
  fold_left (fun d kv => <[kv.1 := kv.2]> d) pairs ∅.

(** [value.keys()]: only a mapping has keys. *)
Definition keys (v : value) : res (list string) :=
  match v with
  | VDict items => ret (map fst items)
  | _ => raise AttributeError
  end.

(** [config.items()] of a value reached by the recursion. *)
Definition items (v : value) : res (list (string * value)) :=
  match v with
  | VDict its => ret its
  | _ => raise AttributeError
  end.

(** [if base_settings:] is false for [None] and for the empty dict. *)
Definition truthy (base_settings : option settings) : bool :=
  match base_settings with
  | Some d => negb (Nat.eqb (size d) 0)
  | None => false
  end.

(** Values are immutable here, so a deep copy is the value itself. *)
Definition deepcopy (d : settings) : settings := d.

(** [d.update(other)] *)
Definition update (d other : settings) : settings := other ∪ d.

(** [[(key[1:], value) for key, value in config.items() if key.startswith('_')]] *)
Definition own_settings (config : list (string * value)) : list (string * value) :=
  map (fun kv => (str_from 1 kv.1, kv.2))
      (filter (fun kv => startswith "_" kv.1 = true) config).

(** The recursion of [build_urls] is bounded by [limit], Python's recursion
    limit: a call that would nest deeper raises [RecursionError]. *)
Fixpoint build_urls (limit : nat) (config : list (string * value))
    (base_url : string) (base_settings : option settings) : res (list route) :=
  match limit with
  | O => raise RecursionError
  | S limit' =>
    let urls := [] in
    let artefacts := filter (fun kv => startswith "_" kv.1 = false) config in
    let settings :=
      match base_settings with
      | Some base =>
        if truthy base_settings
        then update (deepcopy base) (dict (own_settings config))
        else dict (own_settings config)
      | None => dict (own_settings config)
      end in
    for_each artefacts (fun urls kv =>
      let '(key, value) := kv in
      ks <- keys value ;;
      match filter (fun k => startswith "_" k = false) ks with
      | _ :: _ =>
        sub <- items value ;;
        more <- build_urls limit' sub (base_url +:+ "/" +:+ key) (Some settings) ;;
        ret (urls ++ more)
      | [] =>
        ret (urls ++ [Route (base_url +:+ "/" +:+ key) (base_url +:+ "/" +:+ key) settings])
      end) urls
  end.

Definition sample_config : list (string * value) :=
  [("_base_directory", VStr "/srv");
   ("docs", VDict [("_read_token", VStr "r");
                   ("a.pdf", VDict []);
                   ("b.pdf", VDict [("_write_token", VStr "w")])]);
   ("x.bin", VDict [])].

(** ** The filesystem *)

(** Path names are taken literally: the filesystem maps a name to a regular
    file or a directory.  Names made only of separators denote the root
    directory, which always exists; the empty name, as a parent, denotes the
    working directory. *)
Inductive entry :=
| EFile (content : list Byte.byte)
| EDir.

Abbreviation filesystem := (gmap string entry).

Fixpoint drop_while {A} (f : A -> bool) (l : list A) : list A :=
  match l with
  | [] => []
  | x :: l' => if f x then drop_while f l' else l
  end.

Definition is_sep (c : ascii) : bool := Ascii.eqb c "/".

(** [posixpath.dirname]: the part up to the last separator, without its
    trailing separators unless it consists of separators only. *)
Definition dirname (p : string) : string :=
  let head_rev := drop_while (fun c => negb (is_sep c)) (rev (list_ascii_of_string p)) in
  if forallb is_sep head_rev
  then string_of_list_ascii (rev head_rev)
  else string_of_list_ascii (rev (drop_while is_sep head_rev)).

Definition is_root (p : string) : bool :=
  negb (String.eqb p "") && forallb is_sep (list_ascii_of_string p).

Definition stat (fs : filesystem) (p : string) : option entry :=
  if is_root p then Some EDir else fs !! p.

(** The directory a new name is created in. *)
Definition stat_parent (fs : filesystem) (p : string) : option entry :=
  if String.eqb (dirname p) "" then Some EDir else stat fs (dirname p).

(** [os.path.exists] *)
Definition exists_ (p : string) : comp filesystem bool :=
  fun fs => (inr (bool_decide (is_Some (stat fs p))), fs).

(** [os.mkdir] *)
Definition mkdir (name : string) : comp filesystem unit :=
  fun fs =>
    if String.eqb name "" then (inl FileNotFoundError, fs) else
    match stat fs name with
    | Some _ => (inl FileExistsError, fs)
    | None =>
      match stat_parent fs name with
      | Some EDir => (inr tt, <[name := EDir]> fs)
      | Some (EFile _) => (inl NotADirectoryError, fs)
      | None => (inl FileNotFoundError, fs)
      end
    end.

(** [os.makedirs]: create the missing leading directories, then [name]. *)
Fixpoint makedirs_rec (n : nat) (name : string) : comp filesystem unit :=
  (let head := dirname name in
   head_exists <- exists_ head ;;
   _ <- (if negb (String.eqb head "") && negb head_exists
         then match n with
              | O => st_raise RecursionError
              | S n' => makedirs_rec n' head
              end
         else st_ret tt) ;;
   mkdir name)%comp.

Definition makedirs (name : string) : comp filesystem unit :=
  makedirs_rec (String.length name) name.

(** [open(p, 'rb').read] *)
Definition read_file (p : string) : comp filesystem (list Byte.byte) :=
  fun fs =>
    match stat fs p with
    | Some (EFile content) => (inr content, fs)
    | Some EDir => (inl IsADirectoryError, fs)
    | None => (inl FileNotFoundError, fs)
    end.

(** [open(p, 'wb').write(data)]: create or truncate, then write. *)
Definition write_file (p : string) (data : list Byte.byte) : comp filesystem unit :=
  fun fs =>
    if String.eqb p "" then (inl FileNotFoundError, fs) else
    match stat fs p with
    | Some EDir => (inl IsADirectoryError, fs)
    | _ =>
      match stat_parent fs p with
      | Some EDir => (inr tt, <[p := EFile data]> fs)
      | Some (EFile _) => (inl NotADirectoryError, fs)
      | None => (inl FileNotFoundError, fs)
      end
    end.

(** ** Artefact handler *)

Record request := Request {
  headers : gmap string string;
  body : list Byte.byte;
}.

(** The response under construction: status, headers set so far, and the
    chunks the handler has written with [self.write]. *)
Record response := Response {
  status : Z;
  resp_headers : list (string * string);
  chunks : list (list Byte.byte);
}.

Definition new_response : response := Response 200 [] [].

Definition set_status (status_code : Z) (r : response) : response :=
  Response status_code (resp_headers r) (chunks r).

Definition set_header (name v : string) (r : response) : response :=
  Response (status r)
           (filter (fun h => h.1 <> name) (resp_headers r) ++ [(name, v)])
           (chunks r).

Definition write (chunk : list Byte.byte) (r : response) : response :=
  Response (status r) (resp_headers r) (chunks r ++ [chunk]).

Definition get_header (name : string) (r : response) : option string :=
  snd <$> List.find (fun h => String.eqb h.1 name) (resp_headers r).

(** [bearer realm="Simple Artefact Registry"] *)
Definition challenge : string :=
  "bearer realm=" +:+ String "034" ("Simple Artefact Registry" +:+ String "034" "").

(** [ArtefactHandler.write_error] *)
Definition write_error (status_code : Z) (r : response) : response :=
  let r := set_header "WWW-Authenticate" challenge r in
  write (list_byte_of_string (str_of_int status_code)) r.

(** Tornado's [send_error]: the response is reset, the status set, and the
    body rendered by [write_error]; an exception that is not an [HTTPError]
    is sent as a 500. *)
Definition status_of (e : exn) : Z :=
  match e with
  | HTTPError status_code => status_code
  | _ => 500
  end.

Definition send_error (e : exn) : response :=
  write_error (status_of e) (set_status (status_of e) new_response).

Definition respond (outcome : res response) : response :=
  match outcome with
  | inr r => r
  | inl e => send_error e
  end.

Record handler := Handler {
  _path : string;
  _settings : settings;
}.

(** [s != v] for a [str] [s]: a value that is not a [str] differs from it. *)
Definition str_ne (s : string) (v : value) : bool :=
  match v with
  | VStr t => negb (String.eqb s t)
  | _ => true
  end.

(** The authorization block shared by [get] (with ["read_token"]) and [put]
    (with ["write_token"]). *)
Definition check_token (token : string) (self : handler) (req : request) : res unit :=
  match _settings self !! token with
  | Some expected =>
    if negb (Nat.eqb (size (headers req)) 0)
       && bool_decide (is_Some (headers req !! "Authorization"))
    then
      match headers req !! "Authorization" with
      | Some auth =>
        if negb (startswith "bearer " auth) || str_ne (str_from 7 auth) expected
        then raise (HTTPError 401)
        else ret tt
      | None => raise (KeyError "Authorization")
      end
    else raise (HTTPError 401)
  | None => ret tt
  end.

(** The read loop of [get]: 1024-byte chunks until the file is exhausted or
    the peer has closed the connection.  [conn] is the number of flushes
    the peer still accepts ([None]: it stays connected): each chunk is
    written, then flushed, and the flush the peer does not accept raises
    [StreamClosedError], which ends the loop. *)
Fixpoint stream (n : nat) (in_f : list Byte.byte) (conn : option nat)
    (r : response) : response :=
  match n with
  | O => r
  | S n' =>
    let chunk := take 1024 in_f in
    match chunk with
    | [] => r
    | _ :: _ =>
      match conn with
      | Some O => write chunk r
      | _ => stream n' (drop 1024 in_f) (Nat.pred <$> conn) (write chunk r)
      end
    end
  end.

Section Handler.

(** [str] of a mapping, as an f-string renders it. *)
Variable repr_dict : list (string * value) -> string.

(** [f'{v}'] *)
Definition format (v : value) : string :=
  match v with
  | VNone => "None"
  | VStr s => s
  | VInt n => str_of_int n
  | VDict its => repr_dict its
  end.

(** [f'{self._settings["base_directory"]}{self._path}'] *)
Definition file_path (self : handler) : res string :=
  match _settings self !! "base_directory" with
  | Some base_directory => ret (format base_directory +:+ _path self)
  | None => raise (KeyError "base_directory")
  end.

(** [ArtefactHandler.get] *)
Definition get (self : handler) (req : request) (conn : option nat) : comp filesystem response :=
  (_ <- lift (check_token "read_token" self req) ;;
   p <- lift (file_path self) ;;
   found <- exists_ p ;;
   if negb found then st_raise (HTTPError 404) else
   in_f <- read_file p ;;
   st_ret (stream (S (length in_f)) in_f conn new_response))%comp.

(** [ArtefactHandler.put] *)
Definition put (self : handler) (req : request) : comp filesystem response :=
  (_ <- lift (check_token "write_token" self req) ;;
   p <- lift (file_path self) ;;
   found <- exists_ (dirname p) ;;
   _ <- (if negb found then makedirs (dirname p) else st_ret tt) ;;
   _ <- write_file p (body req) ;;
   st_ret (set_status 204 new_response))%comp.

End Handler.

(** ** The route builder over an object store

    [build_urls] again, with every dictionary an object in a store and the
    values of a dictionary either scalars or references: [deepcopy]
    allocates, [update] and item assignment write in place.  This is the
    form in which effects on the caller's objects can be observed. *)

Abbreviation loc := positive.

Inductive pyval :=
| PNone
| PStr (s : string)
| PInt (n : Z)
| PRef (l : loc).

(** A dictionary object: its items in insertion order. *)
Abbreviation heap := (gmap loc (list (string * pyval))).

(** [d[k] = v] on the item list: replace in place, or append. *)
Fixpoint assoc_set (k : string) (v : pyval) (d : list (string * pyval))
    : list (string * pyval) :=
  match d with
  | [] => [(k, v)]
  | (k', v') :: d' =>
    if String.eqb k' k then (k, v) :: d' else (k', v') :: assoc_set k v d'
  end.

(** [d.items()] *)
Definition h_items (d : pyval) : comp heap (list (string * pyval)) :=
  fun h =>
    match d with
    | PRef l =>
      match h !! l with
      | Some its => (inr its, h)
      | None => (inl AttributeError, h)
      end
    | _ => (inl AttributeError, h)
    end.

(** [d.keys()] *)
Definition h_keys (d : pyval) : comp heap (list string) :=
  (its <- h_items d ;; st_ret (map fst its))%comp.

(** A new dictionary object holding [its]. *)
Definition h_new (its : list (string * pyval)) : comp heap pyval :=
  fun h => let l := fresh (dom h) in (inr (PRef l), <[l := its]> h).

(** [d[k] = v] *)
Definition h_setitem (d : pyval) (k : string) (v : pyval) : comp heap unit :=
  fun h =>
    match d with
    | PRef l =>
      match h !! l with
      | Some its => (inr tt, <[l := assoc_set k v its]> h)
      | None => (inl AttributeError, h)
      end
    | _ => (inl AttributeError, h)
    end.

(** [dict(pairs)] *)
Definition h_dict (pairs : list (string * pyval)) : comp heap pyval :=
  (d <- h_new [] ;;
   _ <- st_for_each pairs (fun _ kv => h_setitem d kv.1 kv.2) tt ;;
   st_ret d)%comp.

(** [d.update(other)] *)
Definition h_update (d other : pyval) : comp heap unit :=
  (its <- h_items other ;;
   st_for_each its (fun _ kv => h_setitem d kv.1 kv.2) tt)%comp.

(** [if v:] *)
Definition h_truthy (v : pyval) : comp heap bool :=
  fun h =>
    match v with
    | PNone => (inr false, h)
    | PStr s => (inr (negb (String.eqb s "")), h)
    | PInt n => (inr (negb (Z.eqb n 0)), h)
    | PRef l =>
      match h !! l with
      | Some its => (inr (negb (Nat.eqb (length its) 0)), h)
      | None => (inl AttributeError, h)
      end
    end.

(** [copy.deepcopy] with its memo table: a dictionary met again is copied
    once; scalars are returned as they are.  Its recursion is bounded by
    the recursion limit as well. *)
Fixpoint h_deepcopy (limit : nat) (x : pyval) (memo : gmap loc loc)
    : comp heap (pyval * gmap loc loc) :=
  match x with
  | PRef l =>
    match memo !! l with
    | Some y => st_ret (PRef y, memo)
    | None =>
      match limit with
      | O => st_raise RecursionError
      | S limit' =>
        (its <- h_items x ;;
         y <- h_new [] ;;
         let memo :=
           match y with
           | PRef l' => <[l := l']> memo
           | _ => memo
           end in
         memo <- st_for_each its (fun memo kv =>
                   c <- h_deepcopy limit' kv.2 memo ;;
                   _ <- h_setitem y kv.1 c.1 ;;
                   st_ret c.2) memo ;;
         st_ret (y, memo))%comp
      end
    end
  | _ => st_ret (x, memo)
  end.

Record hroute := HRoute {
  h_url : string;
  h_path : string;
  h_settings : pyval;
}.

(** [[(key[1:], value) for key, value in config.items() if key.startswith('_')]] *)
Definition h_own_settings (config : list (string * pyval)) : list (string * pyval) :=
  map (fun kv => (str_from 1 kv.1, kv.2))
      (filter (fun kv => startswith "_" kv.1 = true) config).

Fixpoint h_build_urls (limit : nat) (config : pyval) (base_url : string)
    (base_settings : pyval) : comp heap (list hroute) :=
  match limit with
  | O => st_raise RecursionError
  | S limit' =>
    (let urls := [] in
     config_items <- h_items config ;;
     let artefacts := filter (fun kv => startswith "_" kv.1 = false) config_items in
     inherited <- h_truthy base_settings ;;
     settings <-
       (if inherited
        then
          c <- h_deepcopy limit' base_settings ∅ ;;
          own <- h_dict (h_own_settings config_items) ;;
          _ <- h_update c.1 own ;;
          st_ret c.1
        else h_dict (h_own_settings config_items)) ;;
     st_for_each artefacts (fun urls kv =>
       let '(key, value) := kv in
       ks <- h_keys value ;;
       match filter (fun k => startswith "_" k = false) ks with
       | _ :: _ =>
         more <- h_build_urls limit' value (base_url +:+ "/" +:+ key) settings ;;
         st_ret (urls ++ more)
       | [] =>
         st_ret (urls ++ [HRoute (base_url +:+ "/" +:+ key)
                                 (base_url +:+ "/" +:+ key) settings])
       end) urls)%comp
  end.

(** ** Shape of a configuration tree *)

(** Every child value (the value of a key that is not a setting key) is a
    mapping, at every level. *)
Fixpoint mapping_tree (v : value) : bool :=
  match v with
  | VDict its =>
    forallb (fun kv => let '(k, c) := kv in startswith "_" k || mapping_tree c) its
  | _ => false
  end.

(** Nesting depth of the mappings of a value. *)
Fixpoint depth (v : value) : nat :=
  match v with
  | VDict its => S (list_max (map (fun kv => let '(_, c) := kv in depth c) its))
  | _ => 0
  end.

(** A directory node has at least one child key; a mapping without one is
    a leaf. *)
Definition is_directory (v : value) : bool :=
  match v with
  | VDict its => existsb (fun kv => negb (startswith "_" kv.1)) its
  | _ => false
  end.

(** The leaves below a node, each as its chain of keys from that node. *)
Fixpoint leaves (v : value) : list (list string) :=
  match v with
  | VDict its =>
    flat_map (fun kv =>
      let '(k, c) := kv in
      if startswith "_" k then []
      else if is_directory c then map (cons k) (leaves c)
      else [[k]]) its
  | _ => []
  end.

(** The keys of a chain, each after a ["/"], appended to [base_url]. *)
Definition join_url (base_url : string) (chain : list string) : string :=
  fold_left (fun u k => u +:+ "/" +:+ k) chain base_url.

(** Keys are unique at every level. *)
Fixpoint unique_keys (v : value) : Prop :=
  match v with
  | VDict its =>
    NoDup (map fst its) /\
    fold_right (fun kv P => let '(_, c) := kv in unique_keys c /\ P) True its
  | _ => True
  end.

(** The settings [build_urls] computes at a node from the inherited ones. *)
Definition node_settings (config : list (string * value))
    (base_settings : option settings) : settings :=
  match base_settings with
  | Some base =>
    if truthy base_settings
    then update (deepcopy base) (dict (own_settings config))
    else dict (own_settings config)
  | None => dict (own_settings config)
  end.

(** The body of the loop of [build_urls]. *)
Local Abbreviation visit limit base_url st :=
  (fun (urls : list route) (kv : string * value) =>
     let '(key, value) := kv in
     ks <- keys value ;;
     match filter (fun k => startswith "_" k = false) ks with
     | _ :: _ =>
       sub <- items value ;;
       more <- build_urls limit sub (base_url +:+ "/" +:+ key) (Some st) ;;
       ret (urls ++ more)
     | [] =>
       ret (urls ++ [Route (base_url +:+ "/" +:+ key) (base_url +:+ "/" +:+ key) st])
     end).

(** The value reached from a node by a chain of keys. *)
Definition getitem (k : string) (its : list (string * value)) : option value :=
  snd <$> List.find (fun kv => String.eqb kv.1 k) its.

Fixpoint node_at (v : value) (chain : list string) : option value :=
  match chain with
  | [] => Some v
  | k :: chain' =>
    match v with
    | VDict its =>
      match getitem k its with
      | Some c => node_at c chain'
      | None => None
      end
    | _ => None
    end
  end.

(** A chain of child keys that ends at a node without child keys. *)
Definition leaf_chain (v : value) (chain : list string) : Prop :=
  chain <> [] /\
  Forall (fun k => startswith "_" k = false) chain /\
  exists c, node_at v chain = Some c /\ is_directory c = false.

(** ** Shape of a filesystem *)

(** The directories above a name: its [dirname], the [dirname] of that, and
    so on up to the working directory. *)
Fixpoint ancestors_rec (n : nat) (name : string) : list string :=
  match n with
  | O => []
  | S n' =>
    let head := dirname name in
    if String.eqb head "" then [] else head :: ancestors_rec n' head
  end.

Definition ancestors (name : string) : list string :=
  ancestors_rec (String.length name) name.

Definition is_file (e : option entry) : bool :=
  match e with
  | Some (EFile _) => true
  | _ => false
  end.

Definition is_dir (e : option entry) : bool :=
  match e with
  | Some EDir => true
  | _ => false
  end.

(** Nothing is in the way of a file named [p]: the name has a directory
    part, is not the name of a directory, and no name above it is the name
    of a regular file. *)
Definition can_store (fs : filesystem) (p : string) : bool :=
  negb (String.eqb (dirname p) "")
  && negb (is_dir (stat fs p))
  && forallb (fun q => negb (is_file (stat fs q))) (dirname p :: ancestors (dirname p)).

(** Every entry lies in a directory. *)
Definition fs_wf (fs : filesystem) : Prop :=
  forall q e, fs !! q = Some e -> stat_parent fs q = Some EDir.

(** ** Shape of a request *)

(** A request is turned down for [token]: it has no [Authorization] header,
    or the header does not start with ["bearer "], or what follows these
    seven characters is not the token. *)
Definition rejected (token : value) (req : request) : Prop :=
  headers req !! "Authorization" = None \/
  exists auth,
    headers req !! "Authorization" = Some auth /\
    (startswith "bearer " auth = false \/ VStr (str_from 7 auth) <> token).

(** A request passes the check for the token named [token]: the settings
    have no such token, or the request is not turned down for it. *)
Definition admitted (token : string) (self : handler) (req : request) : Prop :=
  match _settings self !! token with
  | Some expected => ~ rejected expected req
  | None => True
  end.

(** ** Sample data *)

Definition no_repr : list (string * value) -> string := fun _ => "{}".

Definition sample_handler : handler :=
  Handler "/docs/a.pdf"
    (dict [("base_directory", VStr "/srv"); ("read_token", VStr "r");
           ("write_token", VStr "w")]).

Definition bearer (t : string) (data : list Byte.byte) : request :=
  Request {[ "Authorization" := "bearer " +:+ t ]} data.

Definition sample_body : list Byte.byte := [Byte.x61; Byte.x62; Byte.x63].

(** The configuration of the module's documentation: [file_name:] has no
    value. *)
Definition documented_config : list (string * value) :=
  [("dir_name", VDict [("file_name", VNone)])].

(** A file of 2500 bytes: three chunks. *)
Definition long_body : list Byte.byte := repeat Byte.x2a 2500.

(** The configuration of a base directory and one artefact that has a
    write token of its own. *)
Definition guarded_leaf_config : list (string * value) :=
  [("_base_directory", VStr "/srv")] ++ [("file.bin", VDict [("_write_token", VStr "abc")])].

(** The sample configuration as objects of a store. *)
Definition sample_heap : heap :=
  {[ 1%positive := [("_base_directory", PStr "/srv"); ("docs", PRef 2); ("x.bin", PRef 3)];
     2%positive := [("_read_token", PStr "r"); ("a.pdf", PRef 3); ("b.pdf", PRef 4)];
     3%positive := [];
     4%positive := [("_write_token", PStr "w")] ]}.

(** ** Effects on the store *)

(** A value that is not an object of the store [h0]. *)
Definition fresh_ref (h0 : heap) (v : pyval) : Prop :=
  forall l, v = PRef l -> h0 !! l = None.

(** A computation started in a store that extends [h0] ends in a store that
    extends [h0], and a value it returns satisfies [Q]. *)
Definition keeps {A} (h0 : heap) (c : comp heap A) (Q : A -> Prop) : Prop :=
  forall h r h',
    h0 ⊆ h -> c h = (r, h') ->
    h0 ⊆ h' /\ forall a, r = inr a -> Q a.

(** The copies recorded in a memo table are not objects of [h0]. *)
Definition memo_fresh (h0 : heap) (memo : gmap loc loc) : Prop :=
  forall l y, memo !! l = Some y -> h0 !! y = None.

(** ** Settings along a chain *)

(** The settings [build_urls] has in hand when it reaches the last key of
    [chain]: those of the node that holds this key, computed from the
    settings of the nodes above it. *)
Fixpoint settings_along (config : list (string * value)) (chain : list string)
    (base_settings : option settings) : settings :=
  match chain with
  | k :: ((_ :: _) as chain') =>
    match getitem k config with
    | Some (VDict sub) =>
      settings_along sub chain' (Some (node_settings config base_settings))
    | _ => node_settings config base_settings
    end
  | _ => node_settings config base_settings
  end.

(** ** Growth of a filesystem *)

(** [fs'] has every entry of [fs], and what it has more are directories. *)
Definition grows (fs fs' : filesystem) : Prop :=
  fs ⊆ fs' /\ forall q e, fs' !! q = Some e -> fs !! q = Some e \/ e = EDir.

(** ** Startup: [build_app], [run_server] and the command line *)

(** What Tornado raises for a URL that it does not take as a pattern:
    [re.error] from [re.compile], or the [AssertionError] of its check that
    the groups of a pattern are all named or all positional. *)
Inductive pattern_error :=
| ReError
| GroupsAssertionError.

(** Startup can also raise [TypeError], on a value that is not a mapping,
    and the error of a URL that is not a pattern. *)
Inductive startup_error :=
| TypeError
| Pattern (e : pattern_error)
| Raised (e : exn).

Definition startup (A : Type) : Type := startup_error + A.

Definition su_bind {A B} (c : startup A) (k : A -> startup B) : startup B :=
  match c with
  | inl e => inl e
  | inr a => k a
  end.

Definition su_lift {A} (c : res A) : startup A :=
  match c with
  | inl e => inl (Raised e)
  | inr a => inr a
  end.

Declare Scope startup_scope.
Delimit Scope startup_scope with startup.
Notation "x <- c ;; k" := (su_bind c (fun x => k))
  (at level 100, c at next level, right associativity) : startup_scope.

(** [d[k] = v] on the items of a mapping: replace in place, or append. *)
Fixpoint setitem (k : string) (v : value) (its : list (string * value))
    : list (string * value) :=
  match its with
  | [] => [(k, v)]
  | (k', v') :: its' =>
    if String.eqb k' k then (k, v) :: its' else (k', v') :: setitem k v its'
  end.

(** [k in v]: a key of a mapping, a substring of a string; other values are
    not containers. *)
Definition contains (k : string) (v : value) : startup bool :=
  match v with
  | VDict its => inr (bool_decide (is_Some (getitem k its)))
  | VStr t => inr (bool_decide (is_Some (String.index 0 k t)))
  | _ => inl TypeError
  end.

(** [v[k]] for a string [k] *)
Definition subscript (v : value) (k : string) : startup value :=
  match v with
  | VDict its =>
    match getitem k its with
    | Some x => inr x
    | None => inl (Raised (KeyError k))
    end
  | _ => inl TypeError
  end.

(** [v[k] = x] for a string [k] *)
Definition assign (v : value) (k : string) (x : value) : startup value :=
  match v with
  | VDict its => inr (VDict (setitem k x its))
  | _ => inl TypeError
  end.

(** What [run_server] hands over: the application and the arguments of
    [listen]. *)
Record listening := Listening {
  listen_app : list route;
  listen_port : value;
  listen_host : value;
}.

(** [if k not in config['server']: config['server'][k] = v] *)
Definition default_item (k : string) (v : value) (config : value) : startup value :=
  (server <- subscript config "server" ;;
   present <- contains k server ;;
   if negb present
   then
     server <- assign server k v ;;
     assign config "server" server
   else inr config)%startup.


Section Startup.

(** [web.Application] makes a rule of every handler, in the order of the
    list, and compiles its URL as a regular expression.  Which strings
    Tornado takes as a pattern is not in this repository: [compile_url]
    gives the error it raises for a URL, if any. *)
Variable compile_url : string -> option pattern_error.

(** [web.Application(handlers)]: the handlers, unless a URL is refused;
    the error is that of the first such URL. *)
Fixpoint application (handlers : list route) : startup (list route) :=
  match handlers with
  | [] => inr []
  | r :: handlers' =>
    match compile_url (url r) with
    | Some e => inl (Pattern e)
    | None => (rules <- application handlers' ;; inr (r :: rules))%startup
    end
  end.

(** [build_app]: the application built on the route list. *)
Definition build_app (limit : nat) (config : value) : startup (list route) :=
  (artefacts <- subscript config "artefacts" ;;
   its <- su_lift (items artefacts) ;;
   handlers <- su_lift (build_urls limit its "" None) ;;
   application handlers)%startup.

(** [run_server], up to the start of the loop: the configuration as it
    leaves it, and what it listens with. *)
Definition run_server (limit : nat) (config : value) : startup (value * listening) :=
  (has_server <- contains "server" config ;;
   config <-
     (if negb has_server
      then assign config "server" (VDict [("port", VInt 8080); ("host", VStr "0.0.0.0")])
      else
        config <- default_item "port" (VInt 8080) config ;;
        default_item "host" (VStr "0.0.0.0") config) ;;
   app <- build_app limit config ;;
   server <- subscript config "server" ;;
   port <- subscript server "port" ;;
   server <- subscript config "server" ;;
   host <- subscript server "host" ;;
   inr (config, Listening app port host))%startup.


End Startup.

(** A reading of the URLs in which an unbalanced parenthesis is not a
    pattern, and every other URL is. *)
Fixpoint balanced (depth : nat) (u : string) : bool :=
  match u with
  | EmptyString => Nat.eqb depth 0
  | String c u' =>
    if Ascii.eqb c "(" then balanced (S depth) u'
    else if Ascii.eqb c ")" then
      match depth with
      | O => false
      | S d => balanced d u'
      end
    else balanced depth u'
  end.

Definition sample_compile_url (u : string) : option pattern_error :=
  if balanced 0 u then None else Some ReError.



(** The [server] entry is missing or a mapping. *)
Definition server_ok (config : list (string * value)) : bool :=
  match getitem "server" config with
  | None | Some (VDict _) => true
  | Some _ => false
  end.

(** ** Values held by a store *)

Definition scalar (v : pyval) : bool :=
  match v with
  | PRef _ => false
  | _ => true
  end.

(** The value a scalar is. *)
Definition to_value (v : pyval) : value :=
  match v with
  | PStr s => VStr s
  | PInt n => VInt n
  | _ => VNone
  end.

(** [d.get(k)] on the item list of a dictionary object. *)
Definition passoc (k : string) (d : list (string * pyval)) : option pyval :=
  snd <$> List.find (fun kv => String.eqb kv.1 k) d.

(** The items a dictionary object has after the assignments [pairs], in
    order, starting from [acc]. *)
Definition assign_all (pairs acc : list (string * pyval)) : list (string * pyval) :=
  fold_left (fun a kv => assoc_set kv.1 kv.2 a) pairs acc.

(** In the store [h], [v] holds the value [t]: the same scalar, or a
    dictionary object with the same keys in the same order, whose values
    hold the values of [t]. *)
Fixpoint rep (h : heap) (t : value) (v : pyval) : Prop :=
  match t with
  | VNone => v = PNone
  | VStr s => v = PStr s
  | VInt n => v = PInt n
  | VDict its =>
    exists l pits,
      v = PRef l /\ h !! l = Some pits /\
      (fix all (its : list (string * value)) (pits : list (string * pyval)) : Prop :=
         match its, pits with
         | [], [] => True
         | (k, t) :: its', (k', pv) :: pits' => k = k' /\ rep h t pv /\ all its' pits'
         | _, _ => False
         end) its pits
  end.

(** Item by item: the same key, and the value held. *)
Definition item_rep (h : heap) (kt : string * value) (kp : string * pyval) : Prop :=
  kt.1 = kp.1 /\ rep h kt.2 kp.2.

(** The values of the setting keys are scalars, at every node. *)
Fixpoint scalar_settings (t : value) : bool :=
  match t with
  | VDict its =>
    forallb (fun kv =>
      let '(k, c) := kv in
      if startswith "_" k
      then match c with VDict _ => false | _ => true end
      else scalar_settings c) its
  | _ => true
  end.

(** In the store [h], [v] is a dictionary object of scalars that holds the
    settings [d]. *)
Definition srep (h : heap) (d : settings) (v : pyval) : Prop :=
  exists l pits,
    v = PRef l /\ h !! l = Some pits /\
    NoDup (map fst pits) /\
    Forall (fun kv => scalar kv.2 = true) pits /\
    forall k, d !! k = to_value <$> passoc k pits.

(** The [base_settings] argument: [None], or a settings object. *)
Definition inherits (h : heap) (base_settings : option settings) (v : pyval) : Prop :=
  match base_settings with
  | None => v = PNone
  | Some d => srep h d v
  end.

(** A route over the store and a route by value are the same route. *)
Definition route_rep (h : heap) (hr : hroute) (r : route) : Prop :=
  h_url hr = url r /\ h_path hr = path r /\ srep h (route_settings r) (h_settings hr).

(** The computation of the settings in [h_build_urls], and the body of its
    loop. *)
Local Abbreviation hsettings limit base_settings config_items inherited :=
  (if inherited
   then
     c <- h_deepcopy limit base_settings ∅ ;;
     own <- h_dict (h_own_settings config_items) ;;
     _ <- h_update c.1 own ;;
     st_ret c.1
   else h_dict (h_own_settings config_items))%comp.

Local Abbreviation hvisit limit base_url settings :=
  (fun (urls : list hroute) (kv : string * pyval) =>
     let '(key, value) := kv in
     ks <- h_keys value ;;
     match filter (fun k => startswith "_" k = false) ks with
     | _ :: _ =>
       more <- h_build_urls limit value (base_url +:+ "/" +:+ key) settings ;;
       st_ret (urls ++ more)
     | [] =>
       st_ret (urls ++ [HRoute (base_url +:+ "/" +:+ key)
                               (base_url +:+ "/" +:+ key) settings])
     end)%comp.

(** The value of the setting [k] found on the way down [chain]: the one
    of the nearest node above the last key that has the key ["_" + k], else
    the inherited one. *)
Fixpoint setting_along (config : list (string * value)) (chain : list string)
    (k : string) (inherited : option value) : option value :=
  let here :=
    match getitem ("_" +:+ k) config with
    | Some v => Some v
    | None => inherited
    end in
  match chain with
  | key :: ((_ :: _) as chain') =>
    match getitem key config with
    | Some (VDict sub) => setting_along sub chain' k here
    | _ => here
    end
  | _ => here
  end.

(** * Properties *)

(** ** Route builder: one route per leaf *)

Lemma bind_inr {A B} (c : res A) (k : A -> res B) a :
  c = inr a -> bind c k = k a.
Proof. intros ->. reflexivity. Qed.

Lemma join_url_cons base_url k chain :
  join_url base_url (k :: chain) = join_url (base_url +:+ "/" +:+ k) chain.
Proof. reflexivity. Qed.

Lemma child_keys_directory its :
  filter (fun k => startswith "_" k = false) (map fst its) = [] <->
  is_directory (VDict its) = false.
Proof.
  simpl. induction its as [|[k c] its IH]; simpl.
  - tauto.
  - rewrite filter_cons. destruct (startswith "_" k) eqn:E; simpl.
    + exact IH.
    + split; discriminate.
Qed.

Lemma depth_children its n :
  depth (VDict its) <= S n -> Forall (fun kv => depth kv.2 <= n) its.
Proof.
  simpl. intros H. apply Nat.succ_le_mono in H.
  apply list_max_le in H. rewrite List.Forall_map in H.
  eapply Forall_impl; [exact H|]. intros [k c]. auto.
Qed.

Lemma mapping_tree_children its :
  mapping_tree (VDict its) = true ->
  Forall (fun kv => startswith "_" kv.1 = false -> mapping_tree kv.2 = true) its.
Proof.
  simpl. rewrite forallb_forall. intros H. apply List.Forall_forall.
  intros [k c] Hin E. specialize (H _ Hin). simpl in *.
  rewrite E in H. exact H.
Qed.

Lemma mapping_tree_dict v :
  mapping_tree v = true -> exists its, v = VDict its.
Proof. destruct v; try discriminate. eauto. Qed.

Lemma build_urls_S limit config base_url base_settings :
  build_urls (S limit) config base_url base_settings =
  for_each (filter (fun kv => startswith "_" kv.1 = false) config)
    (visit limit base_url (node_settings config base_settings)) [].
Proof. reflexivity. Qed.

Lemma build_urls_leaves limit :
  forall config base_url base_settings,
    mapping_tree (VDict config) = true ->
    depth (VDict config) <= limit ->
    exists routes,
      build_urls limit config base_url base_settings = inr routes /\
      map url routes = map (join_url base_url) (leaves (VDict config)) /\
      map path routes = map url routes.
Proof.
  induction limit as [|limit IH]; intros config base_url base_settings Hmap Hdepth.
  - simpl in Hdepth. lia.
  - apply depth_children in Hdepth. apply mapping_tree_children in Hmap.
    rewrite build_urls_S. cbn [leaves].
    generalize (node_settings config base_settings). intros st.
    enough (forall urls : list route,
      exists rs,
        for_each (filter (fun kv => startswith "_" kv.1 = false) config)
          (visit limit base_url st) urls = inr (urls ++ rs) /\
        map url rs =
          map (join_url base_url)
            (flat_map (fun kv =>
               let '(k, c) := kv in
               if startswith "_" k then []
               else if is_directory c then map (cons k) (leaves c)
               else [[k]]) config) /\
        map path rs = map url rs) as Hloop.
    { destruct (Hloop []) as (rs & Hrun & Hurl & Hpath). exists rs. auto. }
    induction config as [|[k c] config IHc]; intros urls.
    + exists []. simpl. rewrite app_nil_r. auto.
    + inversion Hdepth as [|? ? Hd Hds]; inversion Hmap as [|? ? Hm Hms]; subst.
      simpl in Hd, Hm. specialize (IHc Hms Hds).
      rewrite filter_cons. cbn [flat_map fst].
      destruct (startswith "_" k) eqn:Ek.
      * rewrite decide_False by discriminate. simpl. apply IHc.
      * rewrite decide_True by reflexivity. specialize (Hm eq_refl).
        destruct (mapping_tree_dict _ Hm) as [its ->].
        cbn [for_each keys bind ret].
        destruct (is_directory (VDict its)) eqn:Edir.
        -- destruct (filter (fun k0 => startswith "_" k0 = false) (map fst its)) eqn:Ef.
           { apply child_keys_directory in Ef. congruence. }
           cbn [items bind ret].
           destruct (IH its (base_url +:+ "/" +:+ k) (Some st) Hm Hd)
             as (more & -> & Hmu & Hmp).
           cbn [bind ret].
           destruct (IHc (urls ++ more)) as (rs & -> & Hru & Hrp).
           exists (more ++ rs). rewrite app_assoc. split; [reflexivity|].
           rewrite !map_app, Hmp, Hrp, Hmu, Hru, map_map.
           split; reflexivity.
        -- apply child_keys_directory in Edir. rewrite Edir.
           cbn [bind ret].
           destruct (IHc (urls ++ [Route (base_url +:+ "/" +:+ k)
                                         (base_url +:+ "/" +:+ k) st]))
             as (rs & -> & Hru & Hrp).
           eexists (_ :: rs). rewrite <- app_assoc. split; [reflexivity|].
           simpl. rewrite Hrp, Hru. split; reflexivity.
Qed.

Lemma unique_keys_children its :
  unique_keys (VDict its) ->
  NoDup (map fst its) /\ Forall (fun kv => unique_keys kv.2) its.
Proof.
  simpl. intros [Hnd Hall]. split; [exact Hnd|]. clear Hnd.
  induction its as [|[k c] its IH]; constructor; simpl in *; tauto.
Qed.

Lemma getitem_unique its k c :
  NoDup (map fst its) -> (k, c) ∈ its -> getitem k its = Some c.
Proof.
  unfold getitem. induction its as [|[k' c'] its IH]; intros Hnd Hin.
  - inversion Hin.
  - simpl in *. apply NoDup_cons in Hnd as [Hk Hnd].
    apply elem_of_cons in Hin as [Heq|Hin].
    + inversion Heq; subst. rewrite String.eqb_refl. reflexivity.
    + destruct (String.eqb_spec k' k) as [->|_].
      * exfalso. apply Hk. apply list_elem_of_fmap. exists (k, c). auto.
      * apply IH; assumption.
Qed.

Lemma getitem_elem its k c : getitem k its = Some c -> (k, c) ∈ its.
Proof.
  unfold getitem. induction its as [|[k' c'] its IH]; simpl; [discriminate|].
  destruct (String.eqb_spec k' k) as [->|_]; simpl.
  - intros [= ->]. left.
  - intros H. right. auto.
Qed.

Lemma leaves_head its chain :
  chain ∈ leaves (VDict its) ->
  exists k c chain', chain = k :: chain' /\ (k, c) ∈ its /\
    startswith "_" k = false /\
    (if is_directory c then chain' ∈ leaves c else chain' = []).
Proof.
  cbn [leaves]. intros H. apply list_elem_of_In, in_flat_map in H.
  destruct H as ([k c] & Hin & H). apply list_elem_of_In in Hin.
  destruct (startswith "_" k) eqn:Ek; [inversion H|].
  destruct (is_directory c) eqn:Ed.
  - apply in_map_iff in H as (chain' & <- & H). apply list_elem_of_In in H.
    exists k, c, chain'. rewrite Ed. auto.
  - destruct H as [<-|[]]. exists k, c, []. rewrite Ed. auto.
Qed.

Lemma leaves_intro its k c chain' :
  (k, c) ∈ its -> startswith "_" k = false ->
  (if is_directory c then chain' ∈ leaves c else chain' = []) ->
  (k :: chain') ∈ leaves (VDict its).
Proof.
  intros Hin Ek H. cbn [leaves]. apply list_elem_of_In, in_flat_map.
  exists (k, c). split; [apply list_elem_of_In, Hin|]. rewrite Ek.
  destruct (is_directory c).
  - apply in_map, list_elem_of_In, H.
  - subst. left. reflexivity.
Qed.

Lemma is_directory_getitem its k c :
  getitem k its = Some c -> startswith "_" k = false ->
  is_directory (VDict its) = true.
Proof.
  intros H Ek. apply getitem_elem in H. simpl. apply existsb_exists.
  exists (k, c). split; [apply list_elem_of_In, H|]. simpl. rewrite Ek. reflexivity.
Qed.

Lemma leaves_leaf_chain chain :
  forall v, unique_keys v -> chain ∈ leaves v <-> leaf_chain v chain.
Proof.
  induction chain as [|k chain IH]; intros v Hu.
  - split.
    + destruct v; try (intros H; inversion H; fail).
      intros H. apply leaves_head in H as (? & ? & ? & ? & _). discriminate.
    + intros [H _]. congruence.
  - destruct v as [| | |its]; try (split; [intros H; inversion H|];
      intros (_ & _ & c & H & _); discriminate).
    apply unique_keys_children in Hu as [Hnd Hch].
    split.
    + intros H. apply leaves_head in H as (k' & c & chain' & [= <- <-] & Hin & Ek & H).
      assert (Hc : unique_keys c).
      { rewrite List.Forall_forall in Hch. apply (Hch (k, c)), list_elem_of_In, Hin. }
      pose proof (getitem_unique _ _ _ Hnd Hin) as Hget.
      destruct (is_directory c) eqn:Ed.
      * apply (IH c Hc) in H as (Hne & Hall & leaf & Hat & Hleaf).
        split; [discriminate|]. split; [constructor; assumption|].
        exists leaf. simpl. rewrite Hget. auto.
      * subst. split; [discriminate|]. split; [repeat constructor; assumption|].
        exists c. simpl. rewrite Hget. auto.
    + intros (_ & Hall & leaf & Hat & Hleaf).
      apply Forall_cons in Hall as [Ek Hall]. simpl in Hat.
      destruct (getitem k its) as [c|] eqn:Hget; [|discriminate].
      assert (Hc : unique_keys c).
      { rewrite List.Forall_forall in Hch.
        apply (Hch (k, c)), list_elem_of_In, getitem_elem, Hget. }
      apply (leaves_intro its k c); [apply getitem_elem, Hget|exact Ek|].
      destruct chain as [|k2 chain].
      * simpl in Hat. injection Hat as ->. rewrite Hleaf. reflexivity.
      * assert (Hd : is_directory c = true).
        { destruct c as [| | |its2]; try discriminate. simpl in Hat.
          destruct (getitem k2 its2) eqn:Hget2; [|discriminate].
          apply Forall_cons in Hall as [Ek2 _].
          eapply is_directory_getitem; eauto. }
        rewrite Hd. apply (IH c Hc). split; [discriminate|]. split; [exact Hall|].
        exists leaf. auto.
Qed.

Lemma leaves_NoDup n :
  forall v, depth v <= n -> unique_keys v -> NoDup (leaves v).
Proof.
  induction n as [|n IH]; intros v Hd Hu.
  - destruct v; simpl in *; try constructor. lia.
  - destruct v as [| | |its]; try (simpl; constructor).
    apply depth_children in Hd. apply unique_keys_children in Hu as [Hnd Hch].
    cbn [leaves].
    induction its as [|[k c] its IHits]; [constructor|].
    simpl in Hnd. apply NoDup_cons in Hnd as [Hk Hnd].
    apply Forall_cons in Hd as [Hdc Hd]. apply Forall_cons in Hch as [Hc Hch].
    cbn [flat_map]. apply NoDup_app. split; [|split].
    + destruct (startswith "_" k); [constructor|].
      destruct (is_directory c).
      * apply NoDup_fmap_2; [intros ? ? [=]; assumption|]. apply IH; assumption.
      * apply NoDup_singleton.
    + intros chain H1 H2.
      assert (exists chain', chain = k :: chain') as [chain' ->].
      { destruct (startswith "_" k); [inversion H1|].
        destruct (is_directory c).
        - apply list_elem_of_fmap in H1 as (chain' & -> & _). eauto.
        - apply list_elem_of_singleton in H1. eauto. }
      apply (leaves_head its) in H2 as (k' & c' & ? & [= <- <-] & Hin & _).
      apply Hk. apply list_elem_of_fmap. exists (k, c'). auto.
    + apply IHits; assumption.
Qed.

(** C5: for a configuration tree with unique keys at every level,
    [build_urls] returns the routes of the leaves, one for each and in
    their order; the URL and the path of a route are the base URL followed
    by the keys of the chain leading to its leaf, each after a ["/"].  The
    chains are pairwise different and are exactly the chains of child keys
    that end at a node without child keys, so a directory node has no
    route. *)
Theorem build_urls_one_route_per_leaf limit config base_url base_settings :
  unique_keys (VDict config) ->
  mapping_tree (VDict config) = true ->
  depth (VDict config) <= limit ->
  exists routes,
    build_urls limit config base_url base_settings = inr routes /\
    map url routes = map (join_url base_url) (leaves (VDict config)) /\
    map path routes = map url routes /\
    NoDup (leaves (VDict config)) /\
    forall chain, chain ∈ leaves (VDict config) <-> leaf_chain (VDict config) chain.
Proof.
  intros Hu Hmap Hdepth.
  destruct (build_urls_leaves limit config base_url base_settings Hmap Hdepth)
    as (routes & Hrun & Hurl & Hpath).
  exists routes. split; [exact Hrun|]. split; [exact Hurl|]. split; [exact Hpath|].
  split.
  - eapply leaves_NoDup; [reflexivity|exact Hu].
  - intros chain. apply leaves_leaf_chain, Hu.
Qed.

Lemma sample_config_unique_keys : unique_keys (VDict sample_config).
Proof.
  simpl. repeat split; apply (bool_decide_unpack _); reflexivity.
Defined.

Lemma build_urls_one_route_per_leaf_witness :
  exists routes,
    build_urls 3 sample_config "" None = inr routes /\
    map url routes = ["/docs/a.pdf"; "/docs/b.pdf"; "/x.bin"].
Proof.
  destruct (build_urls_one_route_per_leaf 3 sample_config "" None)
    as (routes & Hrun & Hurl & _).
  - exact sample_config_unique_keys.
  - reflexivity.
  - simpl. lia.
  - exists routes. split; [exact Hrun|exact Hurl].
Defined.

(** ** Route builder: values that are not mappings *)

Lemma leaf_mapping_tree its :
  is_directory (VDict its) = false -> mapping_tree (VDict its) = true.
Proof.
  simpl. induction its as [|[k c] its IH]; simpl; [reflexivity|].
  destruct (startswith "_" k); simpl; [exact IH|discriminate].
Qed.

Lemma build_urls_ok_mapping_tree limit :
  forall config base_url base_settings routes,
    build_urls limit config base_url base_settings = inr routes ->
    mapping_tree (VDict config) = true.
Proof.
  induction limit as [|limit IH]; intros config base_url base_settings routes.
  - discriminate.
  - rewrite build_urls_S. cbn [mapping_tree].
    generalize (node_settings config base_settings).
    intros st.
    enough (forall urls routes,
      for_each (filter (fun kv => startswith "_" kv.1 = false) config)
        (visit limit base_url st) urls = inr routes ->
      forallb (fun kv => let '(k, c) := kv in startswith "_" k || mapping_tree c)
        config = true) as Hloop by apply Hloop.
    clear routes.
    induction config as [|[k c] config IHc]; intros urls routes; [reflexivity|].
    rewrite filter_cons. cbn [forallb fst].
    destruct (startswith "_" k) eqn:Ek.
    + rewrite decide_False by discriminate. simpl. apply IHc.
    + rewrite decide_True by reflexivity. cbn [for_each orb].
      destruct c as [| | |its]; try discriminate.
      cbn [keys bind ret].
      destruct (is_directory (VDict its)) eqn:Edir.
      * destruct (filter (fun k0 => startswith "_" k0 = false) (map fst its)) eqn:Ef.
        { apply child_keys_directory in Ef. congruence. }
        cbn [items bind ret].
        destruct (build_urls limit its (base_url +:+ "/" +:+ k) (Some st))
          as [e|more] eqn:Hsub; [discriminate|].
        cbn [bind ret]. intros Hrest.
        rewrite (IH _ _ _ _ Hsub). simpl. eapply IHc, Hrest.
      * rewrite (leaf_mapping_tree _ Edir).
        apply child_keys_directory in Edir. rewrite Edir.
        cbn [bind ret]. simpl. apply IHc.
Qed.

Lemma build_urls_not_mapping limit :
  forall config base_url base_settings,
    depth (VDict config) <= limit ->
    mapping_tree (VDict config) = false ->
    build_urls limit config base_url base_settings = inl AttributeError.
Proof.
  induction limit as [|limit IH]; intros config base_url base_settings Hdepth.
  - simpl in Hdepth. lia.
  - apply depth_children in Hdepth.
    rewrite build_urls_S. cbn [mapping_tree].
    generalize (node_settings config base_settings).
    intros st.
    enough (forall urls,
      forallb (fun kv => let '(k, c) := kv in startswith "_" k || mapping_tree c)
        config = false ->
      for_each (filter (fun kv => startswith "_" kv.1 = false) config)
        (visit limit base_url st) urls = inl AttributeError) as Hloop by apply Hloop.
    induction config as [|[k c] config IHc]; intros urls; [discriminate|].
    apply Forall_cons in Hdepth as [Hd Hds]. simpl in Hd. specialize (IHc Hds).
    rewrite filter_cons. cbn [forallb fst].
    destruct (startswith "_" k) eqn:Ek.
    + rewrite decide_False by discriminate. simpl. apply IHc.
    + rewrite decide_True by reflexivity. cbn [for_each orb].
      destruct c as [| | |its]; try reflexivity.
      cbn [keys bind ret].
      destruct (is_directory (VDict its)) eqn:Edir.
      * destruct (filter (fun k0 => startswith "_" k0 = false) (map fst its)) eqn:Ef.
        { apply child_keys_directory in Ef. congruence. }
        cbn [items bind ret].
        destruct (mapping_tree (VDict its)) eqn:Em.
        -- destruct (build_urls_leaves limit its (base_url +:+ "/" +:+ k) (Some st) Em Hd)
             as (more & -> & _).
           cbn [bind ret]. simpl. apply IHc.
        -- rewrite (IH _ _ _ Hd Em). reflexivity.
      * rewrite (leaf_mapping_tree _ Edir).
        apply child_keys_directory in Edir. rewrite Edir.
        cbn [bind ret]. simpl. apply IHc.
Qed.

(** C9: [build_urls] returns a route list only if every child value of the
    configuration is a mapping; when some child value is not, as the null
    of a key written without a value, it raises the [AttributeError] of
    asking that value for its keys. *)
Theorem build_urls_needs_mappings config :
  (forall limit base_url base_settings routes,
     build_urls limit config base_url base_settings = inr routes ->
     mapping_tree (VDict config) = true) /\
  (mapping_tree (VDict config) = false ->
   forall limit base_url base_settings,
     depth (VDict config) <= limit ->
     build_urls limit config base_url base_settings = inl AttributeError).
Proof.
  split.
  - intros limit. apply build_urls_ok_mapping_tree.
  - intros Hm limit base_url base_settings Hd. apply build_urls_not_mapping; assumption.
Qed.

Lemma build_urls_needs_mappings_witness :
  build_urls 2 documented_config "" None = inl AttributeError.
Proof.
  apply (proj2 (build_urls_needs_mappings documented_config)).
  - reflexivity.
  - simpl. lia.
Defined.

(** ** Strings and path names *)

Lemma startswith_app p s : startswith p (p +:+ s) = true.
Proof.
  unfold startswith. induction p as [|c p IH]; simpl.
  - destruct s; reflexivity.
  - destruct (ascii_dec c c); [exact IH|contradiction].
Qed.

Lemma startswith_inv p : forall s, startswith p s = true -> s = p +:+ str_from (String.length p) s.
Proof.
  unfold startswith. induction p as [|c p IH]; intros s H; [reflexivity|].
  destruct s as [|c' s]; simpl in H; [discriminate|].
  destruct (ascii_dec c c') as [->|]; [|discriminate].
  change (String c' s = String c' (p +:+ str_from (String.length p) s)).
  f_equal. apply IH, H.
Qed.

Lemma str_from_app p s : str_from (String.length p) (p +:+ s) = s.
Proof. induction p as [|c p IH]; [reflexivity|exact IH]. Qed.

Lemma str_ne_spec s v : str_ne s v = true <-> VStr s <> v.
Proof.
  destruct v as [|t| |]; simpl; try (split; [discriminate|reflexivity]).
  destruct (String.eqb_spec s t) as [->|Hne]; simpl.
  - split; [discriminate|congruence].
  - split; [congruence|reflexivity].
Qed.

Lemma length_string_of_list_ascii l :
  String.length (string_of_list_ascii l) = length l.
Proof. induction l; simpl; congruence. Qed.

Lemma length_list_ascii_of_string s :
  length (list_ascii_of_string s) = String.length s.
Proof. induction s; simpl; congruence. Qed.

Lemma drop_while_length {A} (f : A -> bool) l :
  length (drop_while f l) <= length l.
Proof. induction l as [|x l IH]; simpl; [lia|]. destruct (f x); simpl; lia. Qed.

Lemma drop_while_all {A} (f : A -> bool) l :
  length (drop_while f l) = length l -> drop_while f l = l.
Proof.
  destruct l as [|x l]; simpl; [reflexivity|].
  destruct (f x); [|reflexivity].
  pose proof (drop_while_length f l). lia.
Qed.

Lemma drop_while_head {A} (f : A -> bool) l :
  match drop_while f l with
  | [] => True
  | x :: _ => f x = false
  end.
Proof.
  induction l as [|x l IH]; simpl; [exact I|].
  destruct (f x) eqn:E; [exact IH|exact E].
Qed.

Lemma dirname_empty : dirname "" = "".
Proof. reflexivity. Qed.

Lemma dirname_length p : String.length (dirname p) <= String.length p.
Proof.
  unfold dirname.
  set (r := rev (list_ascii_of_string p)).
  assert (Hr : length r = String.length p).
  { unfold r. rewrite length_rev. apply length_list_ascii_of_string. }
  pose proof (drop_while_length (fun c => negb (is_sep c)) r) as H1.
  pose proof (drop_while_length is_sep (drop_while (fun c => negb (is_sep c)) r)) as H2.
  destruct (forallb is_sep _); rewrite length_string_of_list_ascii, length_rev; lia.
Qed.

(** A name other than the root and the empty name is longer than its
    [dirname]. *)
Lemma dirname_shorter p :
  p <> "" -> is_root p = false -> String.length (dirname p) < String.length p.
Proof.
  intros Hp Hroot. unfold dirname.
  set (r := rev (list_ascii_of_string p)).
  assert (Hr : length r = String.length p).
  { unfold r. rewrite length_rev. apply length_list_ascii_of_string. }
  pose proof (drop_while_length (fun c => negb (is_sep c)) r) as H1.
  pose proof (drop_while_head (fun c => negb (is_sep c)) r) as Hhd.
  destruct (forallb is_sep (drop_while (fun c => negb (is_sep c)) r)) eqn:Eall;
    rewrite length_string_of_list_ascii, length_rev.
  - destruct (decide (length (drop_while (fun c => negb (is_sep c)) r) = length r))
      as [Heq|Hne]; [|lia].
    apply drop_while_all in Heq. rewrite Heq in Eall.
    exfalso. unfold is_root in Hroot.
    destruct (String.eqb_spec p "") as [|_]; [contradiction|]. simpl in Hroot.
    unfold r in Eall. rewrite forallb_forall in Eall.
    assert (forallb is_sep (list_ascii_of_string p) = true); [|congruence].
    apply forallb_forall. intros c Hc. apply Eall, in_rev.
    rewrite rev_involutive. exact Hc.
  - destruct (drop_while (fun c => negb (is_sep c)) r) as [|c hd]; [discriminate|].
    simpl in Hhd. apply negb_false_iff in Hhd. simpl. rewrite Hhd.
    pose proof (drop_while_length is_sep hd). simpl in H1. lia.
Qed.

(** ** Authorization *)

Lemma headers_nonempty (hs : gmap string string) k v :
  hs !! k = Some v -> Nat.eqb (size hs) 0 = false.
Proof.
  intros H. apply Nat.eqb_neq. intros Hsize.
  apply map_size_empty_iff in Hsize. subst. rewrite lookup_empty in H. discriminate.
Qed.

Lemma check_token_cases token self req :
  check_token token self req = inr tt \/
  check_token token self req = inl (HTTPError 401).
Proof.
  unfold check_token. destruct (_settings self !! token); [|auto].
  destruct (headers req !! "Authorization") as [auth|] eqn:Hauth.
  - rewrite (headers_nonempty _ _ _ Hauth). cbn [negb andb].
    rewrite bool_decide_true by eauto.
    destruct (negb (startswith "bearer " auth) || str_ne (str_from 7 auth) v); auto.
  - rewrite ?bool_decide_false by (intros [? ?]; discriminate).
    rewrite ?andb_false_r. auto.
Qed.

Lemma check_token_rejected token self req expected :
  _settings self !! token = Some expected ->
  check_token token self req = inl (HTTPError 401) <-> rejected expected req.
Proof.
  intros Hset. unfold check_token, rejected. rewrite Hset.
  destruct (headers req !! "Authorization") as [auth|] eqn:Hauth.
  - rewrite (headers_nonempty _ _ _ Hauth). cbn [negb andb].
    rewrite bool_decide_true by eauto.
    destruct (startswith "bearer " auth) eqn:Epre; cbn [negb orb].
    + destruct (str_ne (str_from 7 auth) expected) eqn:Ene.
      * apply str_ne_spec in Ene. split; [|reflexivity].
        intros _. right. exists auth. auto.
      * split; [discriminate|]. intros [H|(a & [= <-] & [H|H])]; try congruence.
        apply str_ne_spec in H. congruence.
    + split; [|reflexivity]. intros _. right. exists auth. auto.
  - rewrite ?bool_decide_false by (intros [? ?]; discriminate).
    rewrite ?andb_false_r. split; [auto|reflexivity].
Qed.

Lemma check_token_open token self req :
  _settings self !! token = None -> check_token token self req = inr tt.
Proof. unfold check_token. intros ->. reflexivity. Qed.

Lemma check_token_bearer token self req t :
  _settings self !! token = Some (VStr t) ->
  headers req !! "Authorization" = Some ("bearer " +:+ t) ->
  check_token token self req = inr tt.
Proof.
  intros Hset Hauth.
  destruct (check_token_cases token self req) as [H|H]; [exact H|].
  apply (check_token_rejected _ _ _ _ Hset) in H.
  destruct H as [H|(auth & Ha & [H|H])]; rewrite Hauth in *; try discriminate.
  - injection Ha as <-. rewrite startswith_app in H. discriminate.
  - injection Ha as <-. exfalso. apply H. reflexivity.
Qed.

Lemma get_turned_down repr_dict self req conn fs e :
  check_token "read_token" self req = inl e ->
  get repr_dict self req conn fs = (inl e, fs).
Proof. intros H. unfold get, st_bind, lift. rewrite H. reflexivity. Qed.

Lemma put_turned_down repr_dict self req fs e :
  check_token "write_token" self req = inl e ->
  put repr_dict self req fs = (inl e, fs).
Proof. intros H. unfold put, st_bind, lift. rewrite H. reflexivity. Qed.

Lemma get_admitted repr_dict self req conn fs :
  check_token "read_token" self req = inr tt ->
  (get repr_dict self req conn fs).1 <> inl (HTTPError 401).
Proof.
  intros H. unfold get, st_bind, lift, exists_, read_file, st_raise, st_ret.
  rewrite H. destruct (file_path repr_dict self) as [e|p] eqn:Hp.
  - unfold file_path in Hp.
    destruct (_settings self !! "base_directory"); inversion Hp. discriminate.
  - destruct (stat fs p) as [[c|]|] eqn:Hs; simpl; rewrite ?Hs; discriminate.
Qed.

(** C2: with a read token in the settings, GET raises the 401 error exactly
    for a request that has no [Authorization] header, or whose header does
    not start with ["bearer "], or whose header continues after these seven
    characters with something else than the token; without a read token in
    the settings GET never raises it. *)
Theorem get_authorization repr_dict self req conn fs :
  (forall token,
     _settings self !! "read_token" = Some token ->
     (get repr_dict self req conn fs).1 = inl (HTTPError 401) <-> rejected token req) /\
  (_settings self !! "read_token" = None ->
   (get repr_dict self req conn fs).1 <> inl (HTTPError 401)).
Proof.
  split.
  - intros token Hset. rewrite <- (check_token_rejected _ _ _ _ Hset).
    destruct (check_token_cases "read_token" self req) as [H|H].
    + split; [|congruence]. intros Hget. exfalso.
      exact (get_admitted repr_dict self req conn fs H Hget).
    + rewrite (get_turned_down _ _ _ _ _ _ H). split; intros _; [exact H|reflexivity].
  - intros Hset. apply get_admitted, check_token_open, Hset.
Qed.

(** ** Filesystem operations *)

Lemma stat_not_root fs p : stat fs p = None -> is_root p = false /\ fs !! p = None.
Proof. unfold stat. destruct (is_root p); [discriminate|auto]. Qed.

Lemma stat_insert_eq fs p e : is_root p = false -> stat (<[p := e]> fs) p = Some e.
Proof. intros H. unfold stat. rewrite H. apply lookup_insert_eq. Qed.

Lemma stat_insert_ne fs p e q : p <> q -> stat (<[p := e]> fs) q = stat fs q.
Proof. intros H. unfold stat. rewrite lookup_insert_ne by exact H. reflexivity. Qed.

Lemma stat_insert_dir fs p q :
  stat fs q = Some EDir -> stat (<[p := EDir]> fs) q = Some EDir.
Proof.
  intros H. unfold stat in *. destruct (is_root q); [reflexivity|].
  destruct (decide (p = q)) as [->|Hne].
  - apply lookup_insert_eq.
  - rewrite lookup_insert_ne by exact Hne. exact H.
Qed.

Lemma stat_subseteq (fs fs' : filesystem) q e :
  fs ⊆ fs' -> stat fs q = Some e -> stat fs' q = Some e.
Proof.
  intros Hsub. unfold stat. destruct (is_root q); [auto|].
  intros H. eapply lookup_weaken; eassumption.
Qed.

Lemma is_root_dirname p : is_root p = true -> dirname p = p.
Proof.
  unfold is_root, dirname. intros H. apply andb_true_iff in H as [Hne Hall].
  assert (Hrev : forallb is_sep (rev (list_ascii_of_string p)) = true).
  { apply forallb_forall. intros c Hc. rewrite forallb_forall in Hall.
    apply Hall, in_rev, Hc. }
  assert (Hdrop : drop_while (fun c => negb (is_sep c)) (rev (list_ascii_of_string p))
                  = rev (list_ascii_of_string p)).
  { destruct (rev (list_ascii_of_string p)) as [|c r]; [reflexivity|].
    simpl in *. apply andb_true_iff in Hrev as [-> _]. reflexivity. }
  rewrite Hdrop, Hrev, rev_involutive. apply string_of_list_ascii_of_string.
Qed.

(** In a well-formed filesystem the names above an entry are directories. *)
Lemma fs_wf_ancestors fs n :
  fs_wf fs -> forall q, stat fs q = Some EDir ->
  Forall (fun a => stat fs a = Some EDir) (ancestors_rec n q).
Proof.
  intros Hwf. induction n as [|n IH]; intros q Hq; [constructor|].
  cbn [ancestors_rec]. destruct (String.eqb_spec (dirname q) "") as [|Hne]; [constructor|].
  assert (Hhead : stat fs (dirname q) = Some EDir).
  { destruct (is_root q) eqn:Hroot.
    - rewrite (is_root_dirname _ Hroot). exact Hq.
    - unfold stat in Hq. rewrite Hroot in Hq. apply Hwf in Hq.
      unfold stat_parent in Hq.
      destruct (String.eqb_spec (dirname q) ""); [contradiction|exact Hq]. }
  constructor; [exact Hhead|]. apply IH, Hhead.
Qed.

Lemma makedirs_rec_ok n :
  forall name fs,
    String.length name <= n -> name <> "" -> stat fs name = None ->
    forallb (fun q => negb (is_file (stat fs q))) (ancestors_rec n name) = true ->
    exists fs',
      makedirs_rec n name fs = (inr tt, fs') /\
      stat fs' name = Some EDir /\
      fs ⊆ fs' /\
      (forall q, String.length name < String.length q -> fs' !! q = fs !! q) /\
      (fs_wf fs -> Forall (fun q => stat fs' q = Some EDir) (ancestors_rec n name)).
Proof.
  induction n as [|n IH]; intros name fs Hlen Hname Hstat Hanc.
  { destruct name; [contradiction|simpl in Hlen; lia]. }
  destruct (stat_not_root _ _ Hstat) as [Hroot Hlook].
  pose proof (dirname_shorter name Hname Hroot) as Hshort.
  assert (Hmk : forall fs1,
    fs1 !! name = None -> stat_parent fs1 name = Some EDir ->
    mkdir name fs1 = (inr tt, <[name := EDir]> fs1)).
  { intros fs1 H1 H2. unfold mkdir.
    destruct (String.eqb_spec name ""); [contradiction|].
    unfold stat at 1. rewrite Hroot, H1, H2. reflexivity. }
  cbn [makedirs_rec ancestors_rec] in *. unfold st_bind, exists_ at 1.
  destruct (String.eqb_spec (dirname name) "") as [Hhead|Hhead].
  - cbn [negb andb]. unfold st_ret at 1.
    rewrite Hmk; [|exact Hlook|unfold stat_parent; rewrite Hhead; reflexivity].
    eexists. split; [reflexivity|]. split; [apply stat_insert_eq, Hroot|].
    split; [apply insert_subseteq, Hlook|]. split; [|constructor].
    intros q Hq. apply lookup_insert_ne. intros ->. lia.
  - cbn [forallb] in Hanc. apply andb_true_iff in Hanc as [Hnf Hanc].
    assert (Hpar : forall fs1, stat fs1 (dirname name) = Some EDir ->
                   stat_parent fs1 name = Some EDir).
    { intros fs1 H1. unfold stat_parent.
      destruct (String.eqb_spec (dirname name) ""); [contradiction|exact H1]. }
    cbn [negb andb].
    destruct (stat fs (dirname name)) as [e|] eqn:Hhs.
    + rewrite bool_decide_true by eauto. cbn [negb]. unfold st_ret at 1.
      destruct e as [c|]; [discriminate|].
      rewrite Hmk; [|exact Hlook|apply Hpar, Hhs].
      eexists. split; [reflexivity|]. split; [apply stat_insert_eq, Hroot|].
      split; [apply insert_subseteq, Hlook|]. split.
      * intros q Hq. apply lookup_insert_ne. intros ->. lia.
      * intros Hwf. constructor; [apply stat_insert_dir, Hhs|].
        eapply Forall_impl; [apply fs_wf_ancestors; eassumption|].
        intros a Ha. apply stat_insert_dir, Ha.
    + rewrite bool_decide_false by (intros [? ?]; discriminate). cbn [negb].
      destruct (IH (dirname name) fs) as (fs1 & Hrun & Hdir & Hsub & Hframe & Hall);
        [lia|exact Hhead|exact Hhs|exact Hanc|].
      rewrite Hrun.
      rewrite Hmk; [|rewrite Hframe by lia; exact Hlook|apply Hpar, Hdir].
      eexists. split; [reflexivity|]. split; [apply stat_insert_eq, Hroot|].
      split; [|split].
      * etransitivity; [exact Hsub|]. apply insert_subseteq.
        rewrite Hframe by lia. exact Hlook.
      * intros q Hq. rewrite lookup_insert_ne by (intros ->; lia).
        apply Hframe. lia.
      * intros Hwf. constructor; [apply stat_insert_dir, Hdir|].
        eapply Forall_impl; [apply Hall, Hwf|].
        intros a Ha. apply stat_insert_dir, Ha.
Qed.

Lemma write_file_ok fs p data :
  p <> "" -> is_dir (stat fs p) = false -> stat_parent fs p = Some EDir ->
  write_file p data fs = (inr tt, <[p := EFile data]> fs).
Proof.
  intros Hp Hnd Hpar. unfold write_file.
  destruct (String.eqb_spec p ""); [contradiction|]. rewrite Hpar.
  destruct (stat fs p) as [[c|]|]; try reflexivity. discriminate.
Qed.

Lemma can_store_inv fs p :
  can_store fs p = true ->
  dirname p <> "" /\ p <> "" /\ is_root p = false /\
  is_dir (stat fs p) = false /\
  is_file (stat fs (dirname p)) = false /\
  forallb (fun q => negb (is_file (stat fs q))) (ancestors (dirname p)) = true /\
  String.length (dirname p) < String.length p.
Proof.
  unfold can_store. cbn [forallb]. rewrite !andb_true_iff, !negb_true_iff.
  intros [[Hd Hnd] [Hnf Hanc]].
  apply String.eqb_neq in Hd.
  assert (Hp : p <> "") by (intros ->; apply Hd; reflexivity).
  assert (Hroot : is_root p = false).
  { destruct (is_root p) eqn:E; [|reflexivity].
    unfold stat in Hnd. rewrite E in Hnd. discriminate. }
  repeat split; try assumption. apply dirname_shorter; assumption.
Qed.

Lemma put_stores repr_dict self req fs p :
  check_token "write_token" self req = inr tt ->
  file_path repr_dict self = inr p ->
  can_store fs p = true ->
  exists fs',
    put repr_dict self req fs = (inr (set_status 204 new_response), fs') /\
    stat fs' p = Some (EFile (body req)) /\
    (forall q e, q <> p -> fs !! q = Some e -> fs' !! q = Some e) /\
    (fs_wf fs ->
     Forall (fun q => stat fs' q = Some EDir) (dirname p :: ancestors (dirname p))).
Proof.
  intros Hcheck Hpath Hcan.
  destruct (can_store_inv _ _ Hcan) as (Hd & Hp & Hroot & Hnd & Hnf & Hanc & Hlen).
  assert (Hpar : forall fs1, stat fs1 (dirname p) = Some EDir ->
                 stat_parent fs1 p = Some EDir).
  { intros fs1 H1. unfold stat_parent.
    destruct (String.eqb_spec (dirname p) ""); [contradiction|exact H1]. }
  assert (Hkeep : forall fs1 q, is_dir (stat fs1 p) = false ->
    stat fs1 q = Some EDir -> stat (<[p := EFile (body req)]> fs1) q = Some EDir).
  { intros fs1 q H1 H2. rewrite stat_insert_ne; [exact H2|].
    intros ->. rewrite H2 in H1. discriminate. }
  unfold put, st_bind, lift. rewrite Hcheck, Hpath. unfold exists_ at 1.
  destruct (stat fs (dirname p)) as [e|] eqn:Hhs.
  - rewrite bool_decide_true by eauto. cbn [negb]. unfold st_ret at 1.
    destruct e as [c|]; [discriminate|].
    rewrite write_file_ok; [|exact Hp|exact Hnd|apply Hpar, Hhs].
    eexists. split; [reflexivity|]. split; [apply stat_insert_eq, Hroot|]. split.
    + intros q e Hq Hl. rewrite lookup_insert_ne by congruence. exact Hl.
    + intros Hwf. constructor; [apply Hkeep; assumption|].
      eapply Forall_impl; [apply fs_wf_ancestors; eassumption|].
      intros a Ha. apply Hkeep; assumption.
  - rewrite bool_decide_false by (intros [? ?]; discriminate). cbn [negb].
    destruct (makedirs_rec_ok (String.length (dirname p)) (dirname p) fs)
      as (fs1 & Hrun & Hdir & Hsub & Hframe & Hall);
      [lia|exact Hd|exact Hhs|exact Hanc|].
    unfold makedirs. rewrite Hrun.
    assert (Hnd1 : is_dir (stat fs1 p) = false).
    { unfold stat in *. rewrite Hroot in *. rewrite Hframe by exact Hlen. exact Hnd. }
    rewrite write_file_ok; [|exact Hp|exact Hnd1|apply Hpar, Hdir].
    eexists. split; [reflexivity|]. split; [apply stat_insert_eq, Hroot|]. split.
    + intros q e Hq Hl. rewrite lookup_insert_ne by congruence.
      eapply lookup_weaken; eassumption.
    + intros Hwf. constructor; [apply Hkeep; assumption|].
      eapply Forall_impl; [apply Hall, Hwf|].
      intros a Ha. apply Hkeep; assumption.
Qed.

(** What a PUT that returns has done. *)
Lemma put_returns repr_dict self req fs r fs' :
  put repr_dict self req fs = (inr r, fs') ->
  exists p,
    check_token "write_token" self req = inr tt /\
    file_path repr_dict self = inr p /\
    stat fs' p = Some (EFile (body req)) /\
    r = set_status 204 new_response.
Proof.
  unfold put, st_bind, lift.
  destruct (check_token "write_token" self req) as [e|[]]; [intros [=]|].
  destruct (file_path repr_dict self) as [e|p]; [intros [=]|].
  unfold exists_ at 1.
  destruct ((if negb (bool_decide (is_Some (stat fs (dirname p))))
             then makedirs (dirname p) else st_ret tt) fs) as [[e|[]] fs1];
    [intros [=]|].
  unfold write_file, st_ret.
  destruct (String.eqb p ""); [intros [=]|].
  assert (Hw : is_dir (stat fs1 p) = false ->
    (inr (set_status 204 new_response) : res response, <[p := EFile (body req)]> fs1)
      = (inr r, fs') ->
    exists p0, (inr tt : res unit) = inr tt /\ (inr p : res string) = inr p0 /\
      stat fs' p0 = Some (EFile (body req)) /\ r = set_status 204 new_response).
  { intros Hnd [= <- <-]. exists p. repeat split.
    apply stat_insert_eq. destruct (is_root p) eqn:E; [|reflexivity].
    unfold stat in Hnd. rewrite E in Hnd. discriminate. }
  destruct (stat fs1 p) as [[c|]|] eqn:Hs; [|intros [=]|];
    (destruct (stat_parent fs1 p) as [[c'|]|] eqn:Hpar; [intros [=]| |intros [=]]);
    apply Hw; reflexivity.
Qed.

Lemma check_token_admitted token self req :
  admitted token self req <-> check_token token self req = inr tt.
Proof.
  unfold admitted. destruct (_settings self !! token) as [expected|] eqn:Hset.
  - rewrite <- (check_token_rejected _ _ _ _ Hset).
    destruct (check_token_cases token self req) as [H|H]; rewrite H.
    + split; [reflexivity|discriminate].
    + split; [intros Hn; exfalso; apply Hn; reflexivity|discriminate].
  - split; [intros _; apply check_token_open, Hset|constructor].
Qed.

(** ** Reading *)

Lemma stream_S n in_f conn r :
  stream (S n) in_f conn r =
  match take 1024 in_f with
  | [] => r
  | _ :: _ =>
    match conn with
    | Some O => write (take 1024 in_f) r
    | _ => stream n (drop 1024 in_f) (Nat.pred <$> conn) (write (take 1024 in_f) r)
    end
  end.
Proof. reflexivity. Qed.

Lemma stream_all n :
  forall in_f r,
    length in_f <= n ->
    exists cs,
      chunks (stream (S n) in_f None r) = chunks r ++ cs /\
      concat cs = in_f /\
      Forall (fun c => c <> [] /\ length c <= 1024) cs /\
      status (stream (S n) in_f None r) = status r /\
      resp_headers (stream (S n) in_f None r) = resp_headers r.
Proof.
  induction n as [|n IH]; intros in_f r Hlen.
  - destruct in_f; [|simpl in Hlen; lia].
    exists []. simpl. rewrite app_nil_r. auto.
  - rewrite stream_S. destruct (take 1024 in_f) as [|b chunk] eqn:Et.
    + assert (in_f = []) as ->.
      { apply (f_equal length) in Et. rewrite length_take in Et.
        destruct in_f; [reflexivity|simpl in Et; lia]. }
      exists []. rewrite app_nil_r. auto.
    + destruct (IH (drop 1024 in_f) (write (b :: chunk) r)) as (cs & Hc & Hcat & Hall & Hst & Hh).
      { rewrite length_drop. lia. }
      exists ((b :: chunk) :: cs).
      change (Nat.pred <$> None) with (@None nat).
      rewrite Hc, Hst, Hh. cbn [write chunks status resp_headers].
      rewrite <- app_assoc. split; [reflexivity|]. split.
      * cbn [concat]. rewrite Hcat, <- Et. apply take_drop.
      * split; [|auto]. constructor; [|exact Hall]. split; [discriminate|].
        rewrite <- Et, length_take. lia.
Qed.

Lemma get_reads repr_dict self req conn fs p content :
  check_token "read_token" self req = inr tt ->
  file_path repr_dict self = inr p ->
  stat fs p = Some (EFile content) ->
  get repr_dict self req conn fs =
    (inr (stream (S (length content)) content conn new_response), fs).
Proof.
  intros Hcheck Hpath Hstat. unfold get, st_bind, lift, exists_, read_file.
  rewrite Hcheck, Hpath, Hstat. rewrite bool_decide_true by eauto.
  cbn [negb]. rewrite Hstat. reflexivity.
Qed.

Lemma get_missing repr_dict self req conn fs p :
  check_token "read_token" self req = inr tt ->
  file_path repr_dict self = inr p ->
  stat fs p = None ->
  get repr_dict self req conn fs = (inl (HTTPError 404), fs).
Proof.
  intros Hcheck Hpath Hstat. unfold get, st_bind, lift, exists_.
  rewrite Hcheck, Hpath, Hstat.
  rewrite bool_decide_false by (intros [? ?]; discriminate). reflexivity.
Qed.

Lemma get_returns_file repr_dict self req fs p content :
  check_token "read_token" self req = inr tt ->
  file_path repr_dict self = inr p ->
  stat fs p = Some (EFile content) ->
  exists r,
    get repr_dict self req None fs = (inr r, fs) /\
    status r = 200%Z /\
    concat (chunks r) = content /\
    Forall (fun c => c <> [] /\ length c <= 1024) (chunks r).
Proof.
  intros Hcheck Hpath Hstat.
  rewrite (get_reads _ _ _ _ _ _ _ Hcheck Hpath Hstat).
  destruct (stream_all (length content) content new_response (le_n _))
    as (cs & Hc & Hcat & Hall & Hst & _).
  eexists. split; [reflexivity|]. rewrite Hc, Hst. simpl. auto.
Qed.

Lemma file_path_base repr_dict self base_directory :
  _settings self !! "base_directory" = Some base_directory ->
  file_path repr_dict self = inr (format repr_dict base_directory +:+ _path self).
Proof. unfold file_path. intros ->. reflexivity. Qed.

Lemma get_authorization_witness :
  (get no_repr sample_handler (bearer "x" []) None ∅).1 = inl (HTTPError 401).
Proof.
  apply (proj1 (get_authorization no_repr sample_handler (bearer "x" []) None ∅)
               (VStr "r")).
  - reflexivity.
  - right. exists "bearer x". split; [reflexivity|]. right. discriminate.
Defined.

(** ** Writing *)

(** C3: with a write token in the settings, a PUT that is turned down
    raises the 401 error and leaves the filesystem as it was; a PUT whose
    header is ["bearer "] followed by the token, on a route with a base
    directory and a filesystem in which nothing is in the way of the file,
    stores the request body in the file, keeps every other entry, and
    answers 204 with no content. *)
Theorem put_authorization repr_dict self req fs token :
  _settings self !! "write_token" = Some token ->
  (rejected token req -> put repr_dict self req fs = (inl (HTTPError 401), fs)) /\
  (forall t base_directory,
     token = VStr t ->
     headers req !! "Authorization" = Some ("bearer " +:+ t) ->
     _settings self !! "base_directory" = Some base_directory ->
     can_store fs (format repr_dict base_directory +:+ _path self) = true ->
     exists r fs',
       put repr_dict self req fs = (inr r, fs') /\
       status r = 204%Z /\ chunks r = [] /\
       stat fs' (format repr_dict base_directory +:+ _path self)
         = Some (EFile (body req)) /\
       forall q e,
         q <> format repr_dict base_directory +:+ _path self ->
         fs !! q = Some e -> fs' !! q = Some e).
Proof.
  intros Hset. split.
  - intros Hrej. apply put_turned_down.
    apply (check_token_rejected _ _ _ _ Hset), Hrej.
  - intros t base_directory -> Hauth Hbase Hcan.
    destruct (put_stores repr_dict self req fs _
                (check_token_bearer _ _ _ _ Hset Hauth)
                (file_path_base _ _ _ Hbase) Hcan)
      as (fs' & Hput & Hfile & Hkeep & _).
    exists (set_status 204 new_response), fs'. auto.
Qed.

Lemma put_authorization_witness :
  put no_repr sample_handler (bearer "x" sample_body) ∅ = (inl (HTTPError 401), ∅) /\
  exists r fs',
    put no_repr sample_handler (bearer "w" sample_body) ∅ = (inr r, fs') /\
    status r = 204%Z /\
    stat fs' "/srv/docs/a.pdf" = Some (EFile sample_body).
Proof.
  split.
  - apply (proj1 (put_authorization no_repr sample_handler (bearer "x" sample_body) ∅
                    (VStr "w") eq_refl)).
    right. exists "bearer x". split; [reflexivity|]. right. discriminate.
  - destruct (proj2 (put_authorization no_repr sample_handler (bearer "w" sample_body) ∅
                       (VStr "w") eq_refl) "w" (VStr "/srv"))
      as (r & fs' & Hput & Hst & _ & Hfile & _);
      [reflexivity|reflexivity|reflexivity|reflexivity|].
    exists r, fs'. split; [exact Hput|]. split; [exact Hst|exact Hfile].
Defined.

(** C8: an admitted PUT to a route whose file lies in a directory that does
    not exist yet, in a well-formed filesystem with no regular file in the
    way, answers 204; afterwards the directory of the file and every
    directory above it exist, and an admitted GET of the route returns the
    bytes that were put. *)
Theorem put_creates_directories repr_dict self req req' fs base_directory :
  _settings self !! "base_directory" = Some base_directory ->
  admitted "write_token" self req ->
  admitted "read_token" self req' ->
  fs_wf fs ->
  can_store fs (format repr_dict base_directory +:+ _path self) = true ->
  stat fs (dirname (format repr_dict base_directory +:+ _path self)) = None ->
  exists r fs',
    put repr_dict self req fs = (inr r, fs') /\
    status r = 204%Z /\
    Forall (fun q => stat fs' q = Some EDir)
      (dirname (format repr_dict base_directory +:+ _path self)
       :: ancestors (dirname (format repr_dict base_directory +:+ _path self))) /\
    exists r',
      get repr_dict self req' None fs' = (inr r', fs') /\
      status r' = 200%Z /\
      concat (chunks r') = body req.
Proof.
  intros Hbase Hw Hr Hwf Hcan Hmissing.
  apply check_token_admitted in Hw, Hr.
  pose proof (file_path_base repr_dict _ _ Hbase) as Hpath.
  destruct (put_stores repr_dict self req fs _ Hw Hpath Hcan)
    as (fs' & Hput & Hfile & _ & Hdirs).
  exists (set_status 204 new_response), fs'.
  split; [exact Hput|]. split; [reflexivity|]. split; [apply Hdirs, Hwf|].
  destruct (get_returns_file repr_dict self req' fs' _ _ Hr Hpath Hfile)
    as (r' & Hget & Hst & Hcat & _).
  exists r'. auto.
Qed.

Lemma fs_wf_empty : fs_wf ∅.
Proof. intros q e H. rewrite lookup_empty in H. discriminate. Defined.

Lemma put_creates_directories_witness :
  exists r fs',
    put no_repr sample_handler (bearer "w" sample_body) ∅ = (inr r, fs') /\
    stat fs' "/srv/docs" = Some EDir /\
    stat fs' "/srv" = Some EDir /\
    exists r',
      get no_repr sample_handler (bearer "r" []) None fs' = (inr r', fs') /\
      concat (chunks r') = sample_body.
Proof.
  destruct (put_creates_directories no_repr sample_handler
              (bearer "w" sample_body) (bearer "r" []) ∅ (VStr "/srv"))
    as (r & fs' & Hput & _ & Hdirs & r' & Hget & _ & Hcat).
  - reflexivity.
  - apply check_token_admitted. reflexivity.
  - apply check_token_admitted. reflexivity.
  - exact fs_wf_empty.
  - reflexivity.
  - reflexivity.
  - exists r, fs'. split; [exact Hput|].
    split; [exact (Forall_inv Hdirs)|].
    split; [exact (Forall_inv (Forall_inv_tail Hdirs))|].
    exists r'. split; [exact Hget|exact Hcat].
Defined.

(** C4: after a PUT that has returned, whatever the file held before, an
    admitted GET of the same route on a connection that stays open returns
    200 and chunks of at most 1024 bytes whose concatenation is the body of
    the PUT, byte for byte; and an admitted PUT on a route with a base
    directory returns whenever nothing is in the way of the file. *)
Theorem put_get_round_trip repr_dict self req req' fs :
  admitted "read_token" self req' ->
  (forall r fs',
     put repr_dict self req fs = (inr r, fs') ->
     exists r',
       get repr_dict self req' None fs' = (inr r', fs') /\
       status r' = 200%Z /\
       concat (chunks r') = body req /\
       Forall (fun c => c <> [] /\ length c <= 1024) (chunks r')) /\
  (forall base_directory,
     admitted "write_token" self req ->
     _settings self !! "base_directory" = Some base_directory ->
     can_store fs (format repr_dict base_directory +:+ _path self) = true ->
     exists r fs', put repr_dict self req fs = (inr r, fs')).
Proof.
  intros Hr. apply check_token_admitted in Hr. split.
  - intros r fs' Hput.
    destruct (put_returns _ _ _ _ _ _ Hput) as (p & _ & Hpath & Hfile & _).
    exact (get_returns_file repr_dict self req' fs' p _ Hr Hpath Hfile).
  - intros base_directory Hw Hbase Hcan. apply check_token_admitted in Hw.
    destruct (put_stores repr_dict self req fs _ Hw (file_path_base _ _ _ Hbase) Hcan)
      as (fs' & Hput & _).
    eauto.
Qed.

Lemma put_get_round_trip_witness :
  exists r fs' r',
    put no_repr sample_handler (bearer "w" long_body)
        {[ "/srv/docs/a.pdf" := EFile sample_body; "/srv/docs" := EDir ]} = (inr r, fs') /\
    get no_repr sample_handler (bearer "r" []) None fs' = (inr r', fs') /\
    concat (chunks r') = long_body.
Proof.
  pose proof (put_get_round_trip no_repr sample_handler (bearer "w" long_body)
                (bearer "r" [])
                {[ "/srv/docs/a.pdf" := EFile sample_body; "/srv/docs" := EDir ]}) as H.
  destruct H as [Hget Hput].
  - apply check_token_admitted. reflexivity.
  - destruct (Hput (VStr "/srv")) as (r & fs' & Hp).
    + apply check_token_admitted. reflexivity.
    + reflexivity.
    + reflexivity.
    + destruct (Hget r fs' Hp) as (r' & Hg & _ & Hcat & _).
      exists r, fs', r'. split; [exact Hp|]. split; [exact Hg|exact Hcat].
Defined.

(** C7: an admitted GET on a route with a base directory, when nothing
    exists under the name made of the base directory followed by the path,
    raises the 404 error: no chunk is written, and the filesystem is as it
    was. *)
Theorem get_not_found repr_dict self req conn fs base_directory :
  admitted "read_token" self req ->
  _settings self !! "base_directory" = Some base_directory ->
  stat fs (format repr_dict base_directory +:+ _path self) = None ->
  get repr_dict self req conn fs = (inl (HTTPError 404), fs).
Proof.
  intros Hr Hbase Hmissing. apply check_token_admitted in Hr.
  exact (get_missing repr_dict self req conn fs _ Hr (file_path_base _ _ _ Hbase) Hmissing).
Qed.

Lemma get_not_found_witness :
  get no_repr sample_handler (bearer "r" []) None ∅ = (inl (HTTPError 404), ∅).
Proof.
  apply (get_not_found no_repr sample_handler (bearer "r" []) None ∅ (VStr "/srv")).
  - apply check_token_admitted. reflexivity.
  - reflexivity.
  - reflexivity.
Defined.

(** ** Error responses *)

Lemma get_header_set_header name v r :
  get_header name (set_header name v r) = Some v.
Proof.
  unfold get_header, set_header. cbn [resp_headers].
  induction (resp_headers r) as [|[n w] hs IH]; simpl.
  - rewrite String.eqb_refl. reflexivity.
  - rewrite filter_cons. cbn [fst].
    destruct (decide (n <> name)) as [Hne|Heq]; [|exact IH].
    simpl. destruct (String.eqb_spec n name); [contradiction|exact IH].
Qed.

(** C6: [write_error] sets the header [WWW-Authenticate] to
    [bearer realm="Simple Artefact Registry"] (the two quotation marks are
    the characters of code 34) and writes the status code in decimal, for
    every status code; so the response sent for any exception, and in
    particular for the 401 and 404 errors, has this header and, as its
    whole body, the digits of its status. *)
Theorem error_response_uniform :
  (forall status_code r,
     get_header "WWW-Authenticate" (write_error status_code r)
       = Some ("bearer realm=" +:+ String "034"
                 ("Simple Artefact Registry" +:+ String "034" "")) /\
     chunks (write_error status_code r)
       = chunks r ++ [list_byte_of_string (str_of_int status_code)]) /\
  (forall e,
     status (send_error e) = status_of e /\
     concat (chunks (send_error e)) = list_byte_of_string (str_of_int (status_of e)) /\
     get_header "WWW-Authenticate" (send_error e)
       = Some ("bearer realm=" +:+ String "034"
                 ("Simple Artefact Registry" +:+ String "034" ""))) /\
  concat (chunks (send_error (HTTPError 401))) = list_byte_of_string "401" /\
  concat (chunks (send_error (HTTPError 404))) = list_byte_of_string "404" /\
  String.length ("bearer realm=" +:+ String "034"
                   ("Simple Artefact Registry" +:+ String "034" "")) = 39 /\
  String.get 13 ("bearer realm=" +:+ String "034"
                   ("Simple Artefact Registry" +:+ String "034" ""))
    = Some (ascii_of_nat 34).
Proof.
  assert (Hw : forall status_code r,
    get_header "WWW-Authenticate" (write_error status_code r)
      = Some ("bearer realm=" +:+ String "034"
                ("Simple Artefact Registry" +:+ String "034" "")) /\
    chunks (write_error status_code r)
      = chunks r ++ [list_byte_of_string (str_of_int status_code)]).
  { intros status_code r. split; [|reflexivity].
    unfold write_error, write, get_header. cbn [resp_headers].
    apply (get_header_set_header "WWW-Authenticate" challenge r). }
  split; [exact Hw|]. split; [|repeat split; reflexivity].
  intros e. unfold send_error.
  destruct (Hw (status_of e) (set_status (status_of e) new_response)) as [Hh Hc].
  split; [reflexivity|]. split; [|exact Hh].
  rewrite Hc. simpl. apply app_nil_r.
Qed.

(** ** Settings of a leaf *)

Lemma own_settings_app config1 config2 :
  own_settings (config1 ++ config2) = own_settings config1 ++ own_settings config2.
Proof. unfold own_settings. rewrite filter_app, map_app. reflexivity. Qed.

(** C1 (what the code does instead): a leaf's route carries the settings
    computed at its parent; the setting keys of the leaf itself are not
    read.  Here the configuration has setting keys [own] and one child
    [key] that is a leaf with any items [leaf]. *)
Theorem build_urls_ignores_leaf_settings limit own key leaf base_url base_settings :
  Forall (fun kv => startswith "_" kv.1 = true) own ->
  startswith "_" key = false ->
  is_directory (VDict leaf) = false ->
  build_urls (S limit) (own ++ [(key, VDict leaf)]) base_url base_settings =
  inr [Route (base_url +:+ "/" +:+ key) (base_url +:+ "/" +:+ key)
             (node_settings own base_settings)].
Proof.
  intros Hown Hkey Hleaf. rewrite build_urls_S.
  assert (Hset : node_settings (own ++ [(key, VDict leaf)]) base_settings
                 = node_settings own base_settings).
  { unfold node_settings. rewrite own_settings_app.
    assert (own_settings [(key, VDict leaf)] = []) as ->.
    { unfold own_settings. rewrite filter_cons. cbn [fst]. rewrite Hkey.
      rewrite decide_False by discriminate. reflexivity. }
    rewrite app_nil_r. reflexivity. }
  rewrite Hset, filter_app. clear Hset.
  assert (filter (fun kv : string * value => startswith "_" kv.1 = false) own = []) as ->.
  { induction Hown as [|[k c] own Hk _ IH]; [reflexivity|].
    rewrite filter_cons. cbn [fst] in *. rewrite Hk.
    rewrite decide_False by discriminate. exact IH. }
  rewrite filter_cons. cbn [fst]. rewrite Hkey, decide_True by reflexivity.
  cbn [app filter for_each keys bind ret].
  apply child_keys_directory in Hleaf. rewrite Hleaf. reflexivity.
Qed.

Lemma build_urls_ignores_leaf_settings_witness :
  exists r,
    build_urls 1 guarded_leaf_config "" None = inr [r] /\
    url r = "/file.bin" /\
    route_settings r !! "base_directory" = Some (VStr "/srv") /\
    route_settings r !! "write_token" = None.
Proof.
  eexists. split.
  - apply (build_urls_ignores_leaf_settings 0 [("_base_directory", VStr "/srv")]
             "file.bin" [("_write_token", VStr "abc")] "" None).
    + repeat constructor.
    + reflexivity.
    + reflexivity.
  - repeat split; reflexivity.
Defined.

(** ** Effects of the route builder on the store *)

Section Keeps.

Variable h0 : heap.

Lemma keeps_ret {A} (a : A) (Q : A -> Prop) : Q a -> keeps h0 (st_ret a) Q.
Proof. intros Ha h r h' Hsub [= <- <-]. split; [exact Hsub|]. intros ? [= <-]. exact Ha. Qed.

Lemma keeps_raise {A} e (Q : A -> Prop) : keeps h0 (st_raise e) Q.
Proof. intros h r h' Hsub [= <- <-]. split; [exact Hsub|]. intros ? [=]. Qed.

Lemma keeps_bind {A B} (c : comp heap A) (k : A -> comp heap B) Q R :
  keeps h0 c Q -> (forall a, Q a -> keeps h0 (k a) R) -> keeps h0 (st_bind c k) R.
Proof.
  intros Hc Hk h r h' Hsub. unfold st_bind.
  destruct (c h) as [[e|a] h1] eqn:Hrun; destruct (Hc _ _ _ Hsub Hrun) as [Hsub1 Hq].
  - intros [= <- <-]. split; [exact Hsub1|]. intros ? [=].
  - apply Hk; [apply Hq; reflexivity|exact Hsub1].
Qed.

Lemma keeps_weaken {A} (c : comp heap A) (Q R : A -> Prop) :
  keeps h0 c Q -> (forall a, Q a -> R a) -> keeps h0 c R.
Proof.
  intros Hc HQR h r h' Hsub Hrun. destruct (Hc _ _ _ Hsub Hrun) as [Hsub' Hq].
  split; [exact Hsub'|]. intros a Ha. apply HQR, Hq, Ha.
Qed.

Lemma keeps_for_each {A B} (l : list A) (body : B -> A -> comp heap B) (I : B -> Prop) :
  (forall b x, I b -> keeps h0 (body b x) I) ->
  forall b, I b -> keeps h0 (st_for_each l body b) I.
Proof.
  intros Hbody. induction l as [|x l IH]; intros b Hb; cbn [st_for_each].
  - apply keeps_ret, Hb.
  - eapply keeps_bind; [apply Hbody, Hb|]. intros b' Hb'. apply IH, Hb'.
Qed.

(** Reading does not change the store. *)
Lemma keeps_read {A} (c : comp heap A) :
  (forall h, (c h).2 = h) -> keeps h0 c (fun _ => True).
Proof.
  intros Hc h r h' Hsub Hrun. specialize (Hc h). rewrite Hrun in Hc. simpl in Hc.
  subst. auto.
Qed.

Lemma keeps_h_items d : keeps h0 (h_items d) (fun _ => True).
Proof.
  apply keeps_read. intros h. unfold h_items.
  destruct d; try reflexivity. destruct (h !! l); reflexivity.
Qed.

Lemma keeps_h_keys d : keeps h0 (h_keys d) (fun _ => True).
Proof.
  unfold h_keys. eapply keeps_bind; [apply keeps_h_items|].
  intros its _. apply keeps_ret. exact I.
Qed.

Lemma keeps_h_truthy v : keeps h0 (h_truthy v) (fun _ => True).
Proof.
  apply keeps_read. intros h. unfold h_truthy.
  destruct v; try reflexivity. destruct (h !! l); reflexivity.
Qed.

(** A new object is not an object of [h0]. *)
Lemma keeps_h_new its : keeps h0 (h_new its) (fresh_ref h0).
Proof.
  intros h r h' Hsub [= <- <-].
  assert (Hfresh : h !! fresh (dom h) = None).
  { apply not_elem_of_dom, is_fresh. }
  split.
  - apply insert_subseteq_r; [|exact Hsub].
    eapply lookup_weaken_None; eassumption.
  - intros a [= <-] l [= <-]. eapply lookup_weaken_None; eassumption.
Qed.

(** Assigning an item of an object that is not of [h0]. *)
Lemma keeps_h_setitem d k v :
  fresh_ref h0 d -> keeps h0 (h_setitem d k v) (fun _ => True).
Proof.
  intros Hd h r h' Hsub. unfold h_setitem.
  destruct d as [| | |l]; try (intros [= <- <-]; auto).
  destruct (h !! l); intros [= <- <-]; [|auto].
  split; [|auto]. apply insert_subseteq_r; [|exact Hsub]. apply Hd. reflexivity.
Qed.

Lemma keeps_h_dict pairs : keeps h0 (h_dict pairs) (fresh_ref h0).
Proof.
  unfold h_dict. eapply keeps_bind; [apply keeps_h_new|]. intros d Hd.
  eapply keeps_bind.
  - apply (keeps_for_each pairs _ (fun _ => True)); [|exact I].
    intros [] kv _. apply keeps_h_setitem, Hd.
  - intros _ _. apply keeps_ret, Hd.
Qed.

Lemma keeps_h_update d other :
  fresh_ref h0 d -> keeps h0 (h_update d other) (fun _ => True).
Proof.
  intros Hd. unfold h_update. eapply keeps_bind; [apply keeps_h_items|].
  intros its _. apply (keeps_for_each its _ (fun _ => True)); [|exact I].
  intros [] kv _. apply keeps_h_setitem, Hd.
Qed.

Lemma keeps_h_deepcopy limit :
  forall x memo,
    memo_fresh h0 memo ->
    keeps h0 (h_deepcopy limit x memo)
      (fun c => fresh_ref h0 c.1 /\ memo_fresh h0 c.2).
Proof.
  induction limit as [|limit IH]; intros x memo Hmemo;
    (destruct x as [| | |l]; cbn [h_deepcopy];
     try (apply keeps_ret; split; [intros ? [=]|exact Hmemo])).
  - destruct (memo !! l) as [y|] eqn:Hl; [|apply keeps_raise].
    apply keeps_ret. split; [|exact Hmemo].
    intros l' [= <-]. eapply Hmemo, Hl.
  - destruct (memo !! l) as [y|] eqn:Hl.
    { apply keeps_ret. split; [|exact Hmemo].
      intros l' [= <-]. eapply Hmemo, Hl. }
    eapply keeps_bind; [apply keeps_h_items|]. intros its _.
    eapply keeps_bind; [apply keeps_h_new|]. intros y Hy.
    eapply keeps_bind.
    + apply (keeps_for_each its _ (memo_fresh h0)).
      * intros m kv Hm.
        eapply keeps_bind; [apply IH, Hm|]. intros c [_ Hc].
        eapply keeps_bind; [apply keeps_h_setitem, Hy|]. intros _ _.
        apply keeps_ret, Hc.
      * destruct y as [| | |l']; try exact Hmemo.
        intros l1 y1 H1. destruct (decide (l = l1)) as [->|Hne].
        -- rewrite lookup_insert_eq in H1. injection H1 as <-. apply Hy. reflexivity.
        -- rewrite lookup_insert_ne in H1 by exact Hne. eapply Hmemo, H1.
    + intros m Hm. apply keeps_ret. split; [exact Hy|exact Hm].
Qed.

Lemma keeps_h_build_urls limit :
  forall config base_url base_settings,
    keeps h0 (h_build_urls limit config base_url base_settings) (fun _ => True).
Proof.
  induction limit as [|limit IH]; intros config base_url base_settings;
    cbn [h_build_urls]; [apply keeps_raise|].
  eapply keeps_bind; [apply keeps_h_items|]. intros config_items _.
  eapply keeps_bind; [apply keeps_h_truthy|]. intros inherited _.
  eapply keeps_bind with (Q := fun _ => True).
  - destruct inherited.
    + eapply keeps_bind.
      { apply keeps_h_deepcopy. intros l y H. rewrite lookup_empty in H. discriminate. }
      intros c [Hc _].
      eapply keeps_bind; [apply keeps_h_dict|]. intros own _.
      eapply keeps_bind; [apply keeps_h_update, Hc|].
      intros _ _. apply keeps_ret. exact I.
    + eapply keeps_weaken; [apply keeps_h_dict|]. auto.
  - intros settings _.
    apply (keeps_for_each _ _ (fun _ => True)); [|exact I].
    intros urls [key value] _.
    eapply keeps_bind; [apply keeps_h_keys|]. intros ks _.
    destruct (filter (fun k => startswith "_" k = false) ks).
    + apply keeps_ret. exact I.
    + eapply keeps_bind; [apply IH|]. intros more _. apply keeps_ret. exact I.
Qed.

End Keeps.

(** C10: whatever [build_urls] is called with and however it ends, every
    dictionary object that existed before the call, so the configuration,
    the inherited settings and everything they refer to, has the same
    items after the call: the only objects written are the ones the call
    has created, the deep copy of the inherited settings among them. *)
Theorem h_build_urls_frame limit config base_url base_settings h r h' :
  h_build_urls limit config base_url base_settings h = (r, h') ->
  forall l its, h !! l = Some its -> h' !! l = Some its.
Proof.
  intros Hrun l its Hl.
  destruct (keeps_h_build_urls h limit config base_url base_settings h r h')
    as [Hsub _]; [reflexivity|exact Hrun|].
  eapply lookup_weaken; eassumption.
Qed.

Lemma h_build_urls_frame_witness :
  (h_build_urls 3 (PRef 1) "" PNone sample_heap).2 !! 2%positive
    = Some [("_read_token", PStr "r"); ("a.pdf", PRef 3); ("b.pdf", PRef 4)] /\
  map h_url
    (match (h_build_urls 3 (PRef 1) "" PNone sample_heap).1 with
     | inr routes => routes
     | inl _ => []
     end) = ["/docs/a.pdf"; "/docs/b.pdf"; "/x.bin"].
Proof.
  split.
  - eapply h_build_urls_frame; [apply surjective_pairing|reflexivity].
  - reflexivity.
Defined.

(** * Further properties *)

(** ** The route list in full *)

Lemma leaves_nonempty v chain : chain ∈ leaves v -> chain <> [].
Proof.
  destruct v as [| | |its]; try (intros H; inversion H; fail).
  intros H. apply leaves_head in H as (? & ? & ? & -> & _). discriminate.
Qed.

Lemma build_urls_routes_gen limit :
  forall config base_url base_settings,
    unique_keys (VDict config) ->
    mapping_tree (VDict config) = true ->
    depth (VDict config) <= limit ->
    build_urls limit config base_url base_settings =
    inr (map (fun chain => Route (join_url base_url chain) (join_url base_url chain)
                                 (settings_along config chain base_settings))
             (leaves (VDict config))).
Proof.
  induction limit as [|limit IH]; intros config base_url base_settings Hu Hmap Hdepth.
  - simpl in Hdepth. lia.
  - apply depth_children in Hdepth. apply mapping_tree_children in Hmap.
    apply unique_keys_children in Hu as [Hnd Hu].
    rewrite build_urls_S. cbn [leaves].
    set (st := node_settings config base_settings).
    set (mk := fun chain => Route (join_url base_url chain) (join_url base_url chain)
                                  (settings_along config chain base_settings)).
    enough (forall rest urls,
      (forall kv, kv ∈ rest -> kv ∈ config) ->
      for_each (filter (fun kv => startswith "_" kv.1 = false) rest)
        (visit limit base_url st) urls =
      inr (urls ++ map mk
             (flat_map (fun kv =>
                let '(k, c) := kv in
                if startswith "_" k then []
                else if is_directory c then map (cons k) (leaves c)
                else [[k]]) rest))) as Hloop.
    { rewrite (Hloop config []); [reflexivity|auto]. }
    induction rest as [|[k c] rest IHr]; intros urls Hin.
    + simpl. rewrite app_nil_r. reflexivity.
    + assert (Hkc : (k, c) ∈ config) by (apply Hin; left).
      assert (Hrest : forall kv, kv ∈ rest -> kv ∈ config) by (intros kv H; apply Hin; right; exact H).
      rewrite List.Forall_forall in Hdepth, Hmap, Hu.
      pose proof (Hdepth _ (proj1 (list_elem_of_In _ _) Hkc)) as Hd.
      pose proof (Hmap _ (proj1 (list_elem_of_In _ _) Hkc)) as Hm.
      pose proof (Hu _ (proj1 (list_elem_of_In _ _) Hkc)) as Huc.
      simpl in Hd, Hm, Huc.
      rewrite filter_cons. cbn [flat_map fst].
      destruct (startswith "_" k) eqn:Ek.
      * rewrite decide_False by discriminate. simpl. apply IHr, Hrest.
      * rewrite decide_True by reflexivity. specialize (Hm eq_refl).
        destruct (mapping_tree_dict _ Hm) as [its ->].
        pose proof (getitem_unique _ _ _ Hnd Hkc) as Hget.
        cbn [for_each keys bind ret].
        destruct (is_directory (VDict its)) eqn:Edir.
        -- destruct (filter (fun k0 => startswith "_" k0 = false) (map fst its)) eqn:Ef.
           { apply child_keys_directory in Ef. congruence. }
           cbn [items bind ret].
           rewrite (IH its (base_url +:+ "/" +:+ k) (Some st) Huc Hm Hd).
           cbn [bind ret]. rewrite (IHr _ Hrest).
           rewrite map_app, app_assoc, map_map. do 3 f_equal.
           apply map_ext_in. intros chain Hc.
           apply list_elem_of_In, leaves_nonempty in Hc.
           destruct chain as [|k2 chain]; [contradiction|].
           unfold mk. cbn [settings_along]. rewrite Hget. reflexivity.
        -- apply child_keys_directory in Edir. rewrite Edir.
           cbn [bind ret]. rewrite (IHr _ Hrest).
           rewrite <- app_assoc. reflexivity.
Qed.

(** X1: for a configuration tree with unique keys whose child values are
    mappings, [build_urls] returns exactly the list of the routes of its
    leaves in order: the route of a leaf has the URL and path of its chain of
    keys, and the settings computed at the node holding the leaf from the
    settings of the nodes above. *)
Theorem build_urls_routes limit config base_url base_settings :
  unique_keys (VDict config) ->
  mapping_tree (VDict config) = true ->
  depth (VDict config) <= limit ->
  build_urls limit config base_url base_settings =
  inr (map (fun chain => Route (join_url base_url chain) (join_url base_url chain)
                               (settings_along config chain base_settings))
           (leaves (VDict config))).
Proof. apply build_urls_routes_gen. Qed.

Lemma build_urls_routes_witness :
  exists r1 r2 r3,
    build_urls 3 sample_config "" None = inr [r1; r2; r3] /\
    route_settings r1 !! "read_token" = Some (VStr "r") /\
    route_settings r2 !! "write_token" = None /\
    route_settings r3 !! "read_token" = None /\
    route_settings r3 !! "base_directory" = Some (VStr "/srv").
Proof.
  eexists _, _, _. split.
  - apply (build_urls_routes 3 sample_config "" None).
    + exact sample_config_unique_keys.
    + reflexivity.
    + simpl. lia.
  - repeat split; reflexivity.
Defined.

(** ** Settings of a node *)

Lemma getitem_own_settings config k :
  getitem k (own_settings config) = getitem ("_" +:+ k) config.
Proof.
  unfold own_settings, getitem.
  induction config as [|[key v] config IH]; [reflexivity|].
  rewrite filter_cons. cbn [fst].
  destruct (startswith "_" key) eqn:Ek.
  - rewrite decide_True by reflexivity. cbn [map List.find fst snd].
    apply (startswith_inv "_") in Ek. cbn [String.length] in Ek.
    destruct (String.eqb_spec (str_from 1 key) k) as [Heq|Hne].
    + rewrite Ek, Heq, String.eqb_refl. reflexivity.
    + destruct (String.eqb_spec key ("_" +:+ k)) as [Heq|_]; [|exact IH].
      exfalso. apply Hne. rewrite Heq. reflexivity.
  - rewrite decide_False by discriminate. cbn [List.find fst].
    destruct (String.eqb_spec key ("_" +:+ k)) as [Heq|_]; [|exact IH].
    rewrite Heq, startswith_app in Ek. discriminate.
Qed.

Lemma own_settings_NoDup config :
  NoDup (map fst config) -> NoDup (map fst (own_settings config)).
Proof.
  unfold own_settings. induction config as [|[key v] config IH]; intros Hnd.
  - constructor.
  - simpl in Hnd. apply NoDup_cons in Hnd as [Hkey Hnd]. specialize (IH Hnd).
    rewrite filter_cons. cbn [fst].
    destruct (decide (startswith "_" key = true)) as [Ek|_]; [|exact IH].
    cbn [map fst]. apply NoDup_cons. split; [|exact IH].
    intros Hin. apply Hkey.
    apply list_elem_of_fmap in Hin as ([k' v'] & Heq & Hin). cbn [fst] in Heq.
    apply list_elem_of_fmap in Hin as ([key' v''] & [= -> ->] & Hin).
    apply list_elem_of_filter in Hin as [Ek' Hin]. cbn [fst] in *.
    apply (startswith_inv "_") in Ek, Ek'. cbn [String.length] in Ek, Ek'.
    apply list_elem_of_fmap. exists (key', v''). split; [|exact Hin].
    cbn [fst]. rewrite Ek, Ek', Heq. reflexivity.
Qed.

Lemma dict_lookup_gen pairs :
  forall acc k,
    NoDup (map fst pairs) ->
    fold_left (fun d kv => <[kv.1 := kv.2]> d) pairs acc !! k =
    match getitem k pairs with
    | Some v => Some v
    | None => (acc : settings) !! k
    end.
Proof.
  unfold getitem. induction pairs as [|[k' v'] pairs IH]; intros acc k Hnd; [reflexivity|].
  simpl in Hnd. apply NoDup_cons in Hnd as [Hk Hnd].
  cbn [fold_left List.find fst snd]. rewrite (IH _ _ Hnd).
  destruct (String.eqb_spec k' k) as [->|Hne].
  - assert (List.find (fun kv : string * value => String.eqb kv.1 k) pairs = None) as ->.
    { destruct (List.find _ pairs) as [[k2 v2]|] eqn:Hf; [|reflexivity].
      exfalso. apply Hk. apply find_some in Hf as [Hin Heq]. cbn [fst] in Heq.
      apply String.eqb_eq in Heq as ->.
      apply list_elem_of_fmap. exists (k, v2). split; [reflexivity|].
      apply list_elem_of_In, Hin. }
    cbn [fmap option_fmap option_map]. apply lookup_insert_eq.
  - rewrite lookup_insert_ne by exact Hne. reflexivity.
Qed.

Lemma dict_lookup config k :
  NoDup (map fst config) ->
  dict (own_settings config) !! k = getitem ("_" +:+ k) config.
Proof.
  intros Hnd. unfold dict.
  rewrite dict_lookup_gen by (apply own_settings_NoDup, Hnd).
  rewrite getitem_own_settings, lookup_empty.
  destruct (getitem ("_" +:+ k) config); reflexivity.
Qed.

(** X2: the settings of a node are merged key by key: for every name, the
    value of the node's own key ["_" + name] when the node has it, else the
    inherited value, else none. *)
Theorem node_settings_lookup config base_settings k :
  NoDup (map fst config) ->
  node_settings config base_settings !! k =
  match getitem ("_" +:+ k) config with
  | Some v => Some v
  | None => base_settings ≫= (fun d => d !! k)
  end.
Proof.
  intros Hnd. unfold node_settings, update, deepcopy.
  destruct base_settings as [base|]; cbn [mbind option_bind].
  - unfold truthy. destruct (Nat.eqb_spec (size base) 0) as [Hsize|Hsize]; cbn [negb].
    + apply map_size_empty_iff in Hsize. subst. rewrite dict_lookup by exact Hnd.
      rewrite lookup_empty. destruct (getitem _ config); reflexivity.
    + rewrite lookup_union, dict_lookup by exact Hnd.
      destruct (getitem _ config), (base !! k); reflexivity.
  - rewrite dict_lookup by exact Hnd. destruct (getitem _ config); reflexivity.
Qed.

Lemma node_settings_lookup_witness :
  node_settings [("_read_token", VStr "new"); ("a", VDict [])]
    (Some (dict [("read_token", VStr "old"); ("base_directory", VStr "/srv")]))
    !! "read_token" = Some (VStr "new").
Proof.
  rewrite node_settings_lookup; [reflexivity|].
  apply (bool_decide_unpack _). reflexivity.
Defined.

(** ** Shape of every route *)

Lemma str_app_assoc a b c : (a +:+ b) +:+ c = a +:+ (b +:+ c).
Proof.
  induction a as [|x a IH]; [reflexivity|].
  change (String x ((a +:+ b) +:+ c) = String x (a +:+ (b +:+ c))). f_equal. exact IH.
Qed.

Lemma startswith_longer p q s :
  startswith (p +:+ q) s = true -> startswith p s = true.
Proof.
  intros H. apply startswith_inv in H. rewrite H, str_app_assoc.
  apply startswith_app.
Qed.

Lemma build_urls_shape limit :
  forall config base_url base_settings routes,
    build_urls limit config base_url base_settings = inr routes ->
    Forall (fun r => path r = url r /\ startswith (base_url +:+ "/") (url r) = true) routes.
Proof.
  induction limit as [|limit IH]; intros config base_url base_settings routes.
  - discriminate.
  - rewrite build_urls_S.
    generalize (node_settings config base_settings). intros st.
    set (P := fun r => path r = url r /\ startswith (base_url +:+ "/") (url r) = true).
    enough (forall urls routes,
      Forall P urls ->
      for_each (filter (fun kv => startswith "_" kv.1 = false) config)
        (visit limit base_url st) urls = inr routes ->
      Forall P routes) as Hloop.
    { apply Hloop. constructor. }
    clear routes.
    induction config as [|[k c] config IHc]; intros urls routes Hurls.
    + intros [= <-]. exact Hurls.
    + rewrite filter_cons. cbn [fst].
      destruct (startswith "_" k) eqn:Ek.
      * rewrite decide_False by discriminate. apply IHc, Hurls.
      * rewrite decide_True by reflexivity. cbn [for_each].
        destruct c as [| | |its]; try discriminate.
        cbn [keys bind ret].
        destruct (filter (fun k0 => startswith "_" k0 = false) (map fst its)).
        -- cbn [bind ret]. apply IHc. apply Forall_app. split; [exact Hurls|].
           repeat constructor. cbn [url].
           rewrite <- (str_app_assoc base_url "/" k). apply startswith_app.
        -- cbn [items bind ret].
           destruct (build_urls limit its (base_url +:+ "/" +:+ k) (Some st))
             as [e|more] eqn:Hsub; [discriminate|].
           cbn [bind ret]. apply IHc. apply Forall_app. split; [exact Hurls|].
           eapply Forall_impl; [exact (IH _ _ _ _ Hsub)|].
           intros r [Hp Hs]. split; [exact Hp|].
           rewrite <- (str_app_assoc base_url "/" k), str_app_assoc in Hs.
           eapply startswith_longer, Hs.
Qed.

(** X3: whatever the configuration, every route [build_urls] returns has
    its URL as the path given to its handler, and this URL starts with the
    base URL followed by ["/"]. *)
Theorem build_urls_url_is_path limit config base_url base_settings routes :
  build_urls limit config base_url base_settings = inr routes ->
  Forall (fun r => path r = url r /\ startswith (base_url +:+ "/") (url r) = true) routes.
Proof. apply build_urls_shape. Qed.

Lemma build_urls_url_is_path_witness :
  Forall (fun r => path r = url r /\ startswith ("/api" +:+ "/") (url r) = true)
    [Route "/api/docs/a.pdf" "/api/docs/a.pdf"
       (dict [("base_directory", VStr "/srv"); ("read_token", VStr "r")]);
     Route "/api/docs/b.pdf" "/api/docs/b.pdf"
       (dict [("base_directory", VStr "/srv"); ("read_token", VStr "r")]);
     Route "/api/x.bin" "/api/x.bin" (dict [("base_directory", VStr "/srv")])].
Proof.
  apply (build_urls_url_is_path 3 sample_config "/api" None). reflexivity.
Defined.

(** ** Directories always lead to a route *)

Lemma directory_has_leaf n :
  forall its,
    depth (VDict its) <= n -> is_directory (VDict its) = true -> leaves (VDict its) <> [].
Proof.
  induction n as [|n IH]; intros its Hd Hdir.
  - simpl in Hd. lia.
  - apply depth_children in Hd. cbn [is_directory] in Hdir.
    apply existsb_exists in Hdir as ([k c] & Hin & Hk). cbn [fst] in Hk.
    apply negb_true_iff in Hk.
    rewrite List.Forall_forall in Hd. specialize (Hd _ Hin). cbn [snd] in Hd.
    intros Hnil.
    assert (Hsub : forall chain,
      In chain (if startswith "_" k then []
                else if is_directory c then map (cons k) (leaves c) else [[k]]) ->
      In chain (leaves (VDict its))).
    { intros chain Hc. cbn [leaves]. apply in_flat_map. exists (k, c). auto. }
    rewrite Hk, Hnil in Hsub.
    destruct (is_directory c) eqn:Edir.
    + destruct c as [| | |sub]; try discriminate.
      pose proof (IH sub Hd Edir) as Hne.
      destruct (leaves (VDict sub)) as [|chain l]; [contradiction|].
      apply (Hsub (k :: chain)). left. reflexivity.
    + apply (Hsub [k]). left. reflexivity.
Qed.

(** X4: for a configuration whose child values are mappings, the route
    list is empty exactly when the root has no child key: a directory
    node, however deep, always leads to at least one route. *)
Theorem build_urls_empty_iff limit config base_url base_settings :
  mapping_tree (VDict config) = true ->
  depth (VDict config) <= limit ->
  build_urls limit config base_url base_settings = inr [] <->
  is_directory (VDict config) = false.
Proof.
  intros Hmap Hdepth.
  destruct (build_urls_leaves limit config base_url base_settings Hmap Hdepth)
    as (routes & Hrun & Hurl & _).
  rewrite Hrun. split.
  - intros [= ->]. destruct (is_directory (VDict config)) eqn:Edir; [|reflexivity].
    exfalso. apply (directory_has_leaf _ _ Hdepth Edir).
    symmetry in Hurl. apply map_eq_nil in Hurl. exact Hurl.
  - intros Hleaf. f_equal.
    assert (leaves (VDict config) = []) as Hnil.
    { cbn [leaves is_directory] in *. clear -Hleaf.
      induction config as [|[k c] config IH]; [reflexivity|].
      cbn [existsb flat_map fst] in *. apply orb_false_iff in Hleaf as [Hk Hrest].
      apply negb_false_iff in Hk. rewrite Hk. apply IH, Hrest. }
    rewrite Hnil in Hurl. apply map_eq_nil in Hurl. exact Hurl.
Qed.

Lemma build_urls_empty_iff_witness :
  build_urls 1 [("_base_directory", VStr "/srv"); ("_read_token", VStr "r")] "" None = inr [].
Proof.
  apply (build_urls_empty_iff 1 [("_base_directory", VStr "/srv"); ("_read_token", VStr "r")]
           "" None); [reflexivity|simpl; lia|reflexivity].
Defined.

(** ** GET and the filesystem *)

(** X5: GET never changes the filesystem, whatever the request, the
    settings and the outcome. *)
Theorem get_keeps_filesystem repr_dict self req conn fs :
  (get repr_dict self req conn fs).2 = fs.
Proof.
  unfold get, st_bind, lift, exists_, read_file, st_raise, st_ret.
  destruct (check_token "read_token" self req); [reflexivity|].
  destruct (file_path repr_dict self) as [e|p]; [reflexivity|].
  destruct (stat fs p) as [[c|]|] eqn:Hs; simpl; rewrite ?Hs; reflexivity.
Qed.

(** ** A peer that closes the connection *)

Lemma stream_closed n :
  forall in_f k r,
    length in_f <= n ->
    exists cs,
      chunks (stream (S n) in_f (Some k) r) = chunks r ++ cs /\
      concat cs = take (1024 * S k) in_f /\
      length cs <= S k /\
      status (stream (S n) in_f (Some k) r) = status r.
Proof.
  induction n as [|n IH]; intros in_f k r Hlen.
  - destruct in_f; [|simpl in Hlen; lia].
    exists []. rewrite take_nil, stream_S, take_nil, app_nil_r.
    split; [reflexivity|]. split; [reflexivity|]. split; [simpl; lia|reflexivity].
  - rewrite stream_S. destruct (take 1024 in_f) as [|b chunk] eqn:Et.
    + assert (in_f = []) as ->.
      { apply (f_equal length) in Et. rewrite length_take in Et.
        destruct in_f; [reflexivity|simpl in Et; lia]. }
      exists []. rewrite take_nil, app_nil_r.
      split; [reflexivity|]. split; [reflexivity|]. split; [simpl; lia|reflexivity].
    + destruct k as [|k].
      * exists [b :: chunk]. cbn [write chunks status].
        split; [reflexivity|]. split; [|split; [simpl; lia|reflexivity]].
        cbn [concat]. rewrite app_nil_r, Nat.mul_1_r. symmetry. exact Et.
      * destruct (IH (drop 1024 in_f) k (write (b :: chunk) r)) as (cs & Hc & Hcat & Hk & Hst).
        { rewrite length_drop. lia. }
        change (Nat.pred <$> Some (S k)) with (Some k).
        exists ((b :: chunk) :: cs). rewrite Hc, Hst. cbn [write chunks status].
        rewrite <- app_assoc. split; [reflexivity|]. split; [|split; [simpl; lia|reflexivity]].
        cbn [concat]. rewrite Hcat, <- Et.
        replace (1024 * S (S k)) with (1024 + 1024 * S k) by lia.
        apply take_take_drop.
Qed.

(** X6: when the peer closes the connection after [k] flushes, an admitted
    GET of an existing file still returns normally, with status 200 and no
    error: the handler has written at most [k + 1] chunks, the first
    [1024 * (k + 1)] bytes of the file, the last of them being the chunk
    whose flush was refused. *)
Theorem get_peer_closes repr_dict self req fs base_directory content k :
  admitted "read_token" self req ->
  _settings self !! "base_directory" = Some base_directory ->
  stat fs (format repr_dict base_directory +:+ _path self) = Some (EFile content) ->
  exists r,
    get repr_dict self req (Some k) fs = (inr r, fs) /\
    status r = 200%Z /\
    length (chunks r) <= S k /\
    concat (chunks r) = take (1024 * S k) content.
Proof.
  intros Hr Hbase Hstat. apply check_token_admitted in Hr.
  rewrite (get_reads _ _ _ _ _ _ _ Hr (file_path_base _ _ _ Hbase) Hstat).
  destruct (stream_closed (length content) content k new_response (le_n _))
    as (cs & Hc & Hcat & Hk & Hst).
  eexists. split; [reflexivity|]. rewrite Hc, Hst. simpl. auto.
Qed.

Lemma get_peer_closes_witness :
  exists r,
    get no_repr sample_handler (bearer "r" []) (Some 1)
        {[ "/srv/docs/a.pdf" := EFile long_body ]} = (inr r, {[ "/srv/docs/a.pdf" := EFile long_body ]}) /\
    length (chunks r) <= 2 /\
    concat (chunks r) = take 2048 long_body.
Proof.
  destruct (get_peer_closes no_repr sample_handler (bearer "r" [])
              {[ "/srv/docs/a.pdf" := EFile long_body ]} (VStr "/srv") long_body 1)
    as (r & Hget & _ & Hlen & Hcat).
  - apply check_token_admitted. reflexivity.
  - reflexivity.
  - reflexivity.
  - exists r. split; [exact Hget|]. split; [exact Hlen|exact Hcat].
Defined.

(** ** Routes that cannot serve *)

(** X7: on a route whose settings have no [base_directory], every admitted
    GET and every admitted PUT raises [KeyError] for that key, which is
    sent as a 500, and the filesystem is left as it was. *)
Theorem no_base_directory repr_dict self req conn fs :
  _settings self !! "base_directory" = None ->
  (admitted "read_token" self req ->
   get repr_dict self req conn fs = (inl (KeyError "base_directory"), fs)) /\
  (admitted "write_token" self req ->
   put repr_dict self req fs = (inl (KeyError "base_directory"), fs)) /\
  status (respond (inl (KeyError "base_directory"))) = 500%Z.
Proof.
  intros Hbase. split; [|split; [|reflexivity]]; intros H;
    apply check_token_admitted in H; unfold get, put, st_bind, lift, file_path;
    rewrite H, Hbase; reflexivity.
Qed.

Lemma no_base_directory_witness :
  put no_repr (Handler "/file.bin" (dict [("write_token", VStr "w")]))
      (bearer "w" sample_body) ∅ = (inl (KeyError "base_directory"), ∅).
Proof.
  apply (no_base_directory no_repr (Handler "/file.bin" (dict [("write_token", VStr "w")]))
           (bearer "w" sample_body) None ∅).
  - reflexivity.
  - apply check_token_admitted. reflexivity.
Defined.

(** X8: a token that is not a string, such as a number written without
    quotes in the configuration, matches no header: with such a read token
    every GET, and with such a write token every PUT, raises the 401 error
    and leaves the filesystem as it was. *)
Theorem token_not_a_string repr_dict self req conn fs token :
  (forall t, token <> VStr t) ->
  (_settings self !! "read_token" = Some token ->
   get repr_dict self req conn fs = (inl (HTTPError 401), fs)) /\
  (_settings self !! "write_token" = Some token ->
   put repr_dict self req fs = (inl (HTTPError 401), fs)).
Proof.
  intros Hnot.
  assert (Hrej : rejected token req).
  { unfold rejected. destruct (headers req !! "Authorization") as [auth|]; [|auto].
    right. exists auth. split; [reflexivity|]. right. intros H. eapply Hnot. symmetry. exact H. }
  split; intros Hset.
  - apply get_turned_down, (check_token_rejected _ _ _ _ Hset), Hrej.
  - apply put_turned_down, (check_token_rejected _ _ _ _ Hset), Hrej.
Qed.

Lemma token_not_a_string_witness :
  get no_repr (Handler "/a" (dict [("base_directory", VStr "/srv"); ("read_token", VInt 12345)]))
      (bearer "12345" []) None ∅ = (inl (HTTPError 401), ∅).
Proof.
  apply (token_not_a_string no_repr
           (Handler "/a" (dict [("base_directory", VStr "/srv"); ("read_token", VInt 12345)]))
           (bearer "12345" []) None ∅ (VInt 12345)).
  - discriminate.
  - reflexivity.
Defined.

(** X9: an admitted GET of a name that is a directory is not a 404: the
    name exists, opening it raises [IsADirectoryError], and the request is
    answered with a 500. *)
Theorem get_directory repr_dict self req conn fs base_directory :
  admitted "read_token" self req ->
  _settings self !! "base_directory" = Some base_directory ->
  stat fs (format repr_dict base_directory +:+ _path self) = Some EDir ->
  get repr_dict self req conn fs = (inl IsADirectoryError, fs) /\
  status (respond (get repr_dict self req conn fs).1) = 500%Z.
Proof.
  intros Hr Hbase Hstat. apply check_token_admitted in Hr.
  assert (Hget : get repr_dict self req conn fs = (inl IsADirectoryError, fs)).
  { unfold get, st_bind, lift, exists_, read_file.
    rewrite Hr, (file_path_base _ _ _ Hbase), Hstat.
    rewrite bool_decide_true by eauto. cbn [negb]. rewrite Hstat. reflexivity. }
  rewrite Hget. split; reflexivity.
Qed.

Lemma get_directory_witness :
  get no_repr sample_handler (bearer "r" []) None {[ "/srv/docs/a.pdf" := EDir ]}
    = (inl IsADirectoryError, {[ "/srv/docs/a.pdf" := EDir ]}).
Proof.
  apply (get_directory no_repr sample_handler (bearer "r" []) None
           {[ "/srv/docs/a.pdf" := EDir ]} (VStr "/srv")).
  - apply check_token_admitted. reflexivity.
  - reflexivity.
  - reflexivity.
Defined.

(** ** What PUT leaves alone *)

Lemma grows_refl fs : grows fs fs.
Proof. split; [reflexivity|auto]. Qed.

Lemma grows_trans fs1 fs2 fs3 : grows fs1 fs2 -> grows fs2 fs3 -> grows fs1 fs3.
Proof.
  intros [Hs1 Hn1] [Hs2 Hn2]. split; [etransitivity; eassumption|].
  intros q e H. destruct (Hn2 _ _ H) as [H2|H2]; [apply Hn1, H2|auto].
Qed.

Lemma mkdir_grows name fs r fs' : mkdir name fs = (r, fs') -> grows fs fs'.
Proof.
  unfold mkdir. destruct (String.eqb name ""); [intros [= <- <-]; apply grows_refl|].
  destruct (stat fs name) as [e|] eqn:Hs; [intros [= <- <-]; apply grows_refl|].
  apply stat_not_root in Hs as [_ Hl].
  destruct (stat_parent fs name) as [[c|]|]; intros [= <- <-]; try apply grows_refl.
  split; [apply insert_subseteq, Hl|].
  intros q e Hq. destruct (decide (name = q)) as [->|Hne].
  - rewrite lookup_insert_eq in Hq. injection Hq as <-. auto.
  - rewrite lookup_insert_ne in Hq by exact Hne. auto.
Qed.

Lemma makedirs_rec_grows n :
  forall name fs r fs', makedirs_rec n name fs = (r, fs') -> grows fs fs'.
Proof.
  induction n as [|n IH]; intros name fs r fs'; cbn [makedirs_rec];
    unfold st_bind, exists_ at 1;
    destruct (negb (String.eqb (dirname name) "")
              && negb (bool_decide (is_Some (stat fs (dirname name))))).
  - intros [= <- <-]. apply grows_refl.
  - unfold st_ret at 1. apply mkdir_grows.
  - destruct (makedirs_rec n (dirname name) fs) as [[e|[]] fs1] eqn:Hrec.
    + intros [= <- <-]. eapply IH, Hrec.
    + intros Hmk. eapply grows_trans; [eapply IH, Hrec|eapply mkdir_grows, Hmk].
  - unfold st_ret at 1. apply mkdir_grows.
Qed.

Lemma makedirs_rec_made n name fs fs' :
  makedirs_rec n name fs = (inr tt, fs') -> stat fs' name = Some EDir.
Proof.
  assert (Hmk : forall fs1, mkdir name fs1 = (inr tt, fs') -> stat fs' name = Some EDir).
  { intros fs1. unfold mkdir. destruct (String.eqb name ""); [intros [=]|].
    destruct (stat fs1 name) as [e|] eqn:Hs; [intros [=]|].
    apply stat_not_root in Hs as [Hroot _].
    destruct (stat_parent fs1 name) as [[c|]|]; intros [= <-].
    apply stat_insert_eq, Hroot. }
  destruct n as [|n]; cbn [makedirs_rec]; unfold st_bind, exists_ at 1;
    destruct (negb (String.eqb (dirname name) "")
              && negb (bool_decide (is_Some (stat fs (dirname name))))).
  - intros [=].
  - unfold st_ret at 1. apply Hmk.
  - destruct (makedirs_rec n (dirname name) fs) as [[e|[]] fs1]; [intros [=]|apply Hmk].
  - unfold st_ret at 1. apply Hmk.
Qed.

(** X10: whatever its outcome, PUT removes and changes no entry of the
    filesystem other than the artefact file of its route, and what it adds
    are directories and that file, holding the request body. *)
Theorem put_frame repr_dict self req fs r fs' :
  put repr_dict self req fs = (r, fs') ->
  (forall q e,
     fs !! q = Some e -> file_path repr_dict self <> inr q -> fs' !! q = Some e) /\
  (forall q e,
     fs' !! q = Some e ->
     fs !! q = Some e \/ e = EDir \/
     (file_path repr_dict self = inr q /\ e = EFile (body req))).
Proof.
  unfold put, st_bind, lift.
  destruct (check_token "write_token" self req) as [e0|[]].
  { intros [= <- <-]. split; auto. }
  destruct (file_path repr_dict self) as [e0|p].
  { intros [= <- <-]. split; auto. }
  unfold exists_ at 1.
  destruct ((if negb (bool_decide (is_Some (stat fs (dirname p))))
             then makedirs (dirname p) else st_ret tt) fs) as [[e0|[]] fs1] eqn:Hprep.
  - intros [= <- <-].
    assert (Hg : grows fs fs1).
    { destruct (negb _); [eapply makedirs_rec_grows, Hprep|].
      unfold st_ret in Hprep. discriminate. }
    destruct Hg as [Hsub Hnew]. split.
    + intros q e Hq _. eapply lookup_weaken; eassumption.
    + intros q e Hq. destruct (Hnew _ _ Hq); auto.
  - assert (Hg : grows fs fs1).
    { destruct (negb _); [eapply makedirs_rec_grows, Hprep|].
      unfold st_ret in Hprep. injection Hprep as <-. apply grows_refl. }
    destruct Hg as [Hsub Hnew].
    assert (Hkeep : (forall q e, fs !! q = Some e -> inr p <> (inr q : res string) ->
                       fs1 !! q = Some e) /\
                    (forall q e, fs1 !! q = Some e ->
                       fs !! q = Some e \/ e = EDir \/
                       ((inr p : res string) = inr q /\ e = EFile (body req)))).
    { split.
      - intros q e Hq _. eapply lookup_weaken; eassumption.
      - intros q e Hq. destruct (Hnew _ _ Hq); auto. }
    unfold write_file, st_ret.
    destruct (String.eqb p ""); [intros [= <- <-]; exact Hkeep|].
    assert (Hw : forall r0 : res response,
      (r0, <[p := EFile (body req)]> fs1) = (r, fs') ->
      (forall q e, fs !! q = Some e -> inr p <> (inr q : res string) -> fs' !! q = Some e) /\
      (forall q e, fs' !! q = Some e ->
         fs !! q = Some e \/ e = EDir \/
         ((inr p : res string) = inr q /\ e = EFile (body req)))).
    { intros r0 [= <- <-]. split.
      - intros q e Hq Hne. rewrite lookup_insert_ne by congruence.
        eapply lookup_weaken; eassumption.
      - intros q e Hq. destruct (decide (p = q)) as [->|Hne].
        + rewrite lookup_insert_eq in Hq. injection Hq as <-. auto.
        + rewrite lookup_insert_ne in Hq by exact Hne.
          destruct (Hnew _ _ Hq); auto. }
    destruct (stat fs1 p) as [[c|]|]; [|intros [= <- <-]; exact Hkeep|];
      (destruct (stat_parent fs1 p) as [[c'|]|];
       [intros [= <- <-]; exact Hkeep|apply Hw|intros [= <- <-]; exact Hkeep]).
Qed.

Lemma put_frame_witness :
  (put no_repr sample_handler (bearer "w" sample_body)
       {[ "/srv/other.bin" := EFile long_body ]}).2 !! "/srv/other.bin"
  = Some (EFile long_body).
Proof.
  apply (proj1 (put_frame no_repr sample_handler (bearer "w" sample_body)
                  {[ "/srv/other.bin" := EFile long_body ]} _ _ (surjective_pairing _))).
  - reflexivity.
  - discriminate.
Defined.

(** ** Repeated PUT *)

(** What a PUT that returns has found and done, step by step. *)
Lemma put_inv repr_dict self req fs r fs1 :
  put repr_dict self req fs = (inr r, fs1) ->
  exists p fs_m,
    check_token "write_token" self req = inr tt /\
    file_path repr_dict self = inr p /\
    (if bool_decide (is_Some (stat fs (dirname p)))
     then fs_m = fs
     else makedirs (dirname p) fs = (inr tt, fs_m)) /\
    String.eqb p "" = false /\
    is_dir (stat fs_m p) = false /\
    stat_parent fs_m p = Some EDir /\
    fs1 = <[p := EFile (body req)]> fs_m /\
    r = set_status 204 new_response.
Proof.
  unfold put, st_bind, lift.
  destruct (check_token "write_token" self req) as [e|[]]; [intros [=]|].
  destruct (file_path repr_dict self) as [e|p]; [intros [=]|].
  unfold exists_ at 1.
  destruct ((if negb (bool_decide (is_Some (stat fs (dirname p))))
             then makedirs (dirname p) else st_ret tt) fs) as [[e|[]] fs_m] eqn:Hprep;
    [intros [=]|].
  unfold write_file, st_ret.
  destruct (String.eqb p "") eqn:Hp; [intros [=]|].
  intros Hw. exists p, fs_m.
  assert (Hm : if bool_decide (is_Some (stat fs (dirname p)))
               then fs_m = fs else makedirs (dirname p) fs = (inr tt, fs_m)).
  { destruct (bool_decide (is_Some (stat fs (dirname p)))); cbn [negb] in Hprep.
    - unfold st_ret in Hprep. congruence.
    - exact Hprep. }
  destruct (stat fs_m p) as [[c|]|] eqn:Hs; [|discriminate Hw|];
    (destruct (stat_parent fs_m p) as [[c'|]|] eqn:Hpar;
     [discriminate Hw| |discriminate Hw]);
    injection Hw as <- <-; repeat split; assumption || reflexivity.
Qed.

Lemma put_again repr_dict self req1 req2 fs r1 fs1 :
  put repr_dict self req1 fs = (inr r1, fs1) ->
  check_token "write_token" self req2 = inr tt ->
  exists p fs_m,
    fs1 = <[p := EFile (body req1)]> fs_m /\
    put repr_dict self req2 fs
      = (inr (set_status 204 new_response), <[p := EFile (body req2)]> fs_m) /\
    put repr_dict self req2 fs1
      = (inr (set_status 204 new_response), <[p := EFile (body req2)]> fs_m).
Proof.
  intros Hput Hcheck.
  destruct (put_inv _ _ _ _ _ _ Hput)
    as (p & fs_m & _ & Hpath & Hprep & Hp & Hnd & Hpar & -> & _).
  exists p, fs_m. split; [reflexivity|].
  apply String.eqb_neq in Hp.
  assert (Hroot : is_root p = false).
  { destruct (is_root p) eqn:E; [|reflexivity].
    unfold stat in Hnd. rewrite E in Hnd. discriminate. }
  assert (Hne : p <> dirname p).
  { intros Heq. pose proof (dirname_shorter p Hp Hroot) as Hlt.
    rewrite <- Heq in Hlt. lia. }
  split.
  - unfold put, st_bind, lift. rewrite Hcheck, Hpath. unfold exists_ at 1.
    destruct (bool_decide (is_Some (stat fs (dirname p)))); cbn [negb].
    + subst fs_m. unfold st_ret at 1.
      rewrite write_file_ok by assumption. reflexivity.
    + rewrite Hprep. rewrite write_file_ok by assumption. reflexivity.
  - assert (Hdir : is_Some (stat fs_m (dirname p))).
    { destruct (bool_decide (is_Some (stat fs (dirname p)))) eqn:Hb.
      - subst fs_m. apply bool_decide_eq_true in Hb. exact Hb.
      - unfold makedirs in Hprep. apply makedirs_rec_made in Hprep. eauto. }
    unfold put, st_bind, lift. rewrite Hcheck, Hpath. unfold exists_ at 1.
    rewrite (stat_insert_ne _ _ _ _ Hne).
    rewrite bool_decide_true by exact Hdir. cbn [negb]. unfold st_ret at 1.
    rewrite write_file_ok.
    + rewrite insert_insert_eq. reflexivity.
    + exact Hp.
    + rewrite stat_insert_eq by exact Hroot. reflexivity.
    + unfold stat_parent in *. destruct (String.eqb (dirname p) ""); [reflexivity|].
      rewrite (stat_insert_ne _ _ _ _ Hne). exact Hpar.
Qed.

(** X11: once a PUT has returned, repeating it changes nothing, and any
    admitted PUT to the route then behaves exactly as it would have on the
    filesystem before the first one: the later body replaces the earlier
    one, nothing of it remains. *)
Theorem put_last_writer_wins repr_dict self req1 fs r1 fs1 :
  put repr_dict self req1 fs = (inr r1, fs1) ->
  put repr_dict self req1 fs1 = (inr r1, fs1) /\
  forall req2,
    admitted "write_token" self req2 ->
    put repr_dict self req2 fs1 = put repr_dict self req2 fs.
Proof.
  intros Hput. split.
  - destruct (put_inv _ _ _ _ _ _ Hput) as (_ & _ & Hcheck & _).
    destruct (put_again _ _ _ req1 _ _ _ Hput Hcheck) as (p & fs_m & _ & H0 & H1).
    rewrite H1, <- H0. exact Hput.
  - intros req2 Hadm. apply check_token_admitted in Hadm.
    destruct (put_again _ _ _ req2 _ _ _ Hput Hadm) as (p & fs_m & _ & H0 & H1).
    rewrite H0, H1. reflexivity.
Qed.

Lemma put_last_writer_wins_witness :
  let fs1 := (put no_repr sample_handler (bearer "w" long_body) ∅).2 in
  put no_repr sample_handler (bearer "w" sample_body) fs1
  = put no_repr sample_handler (bearer "w" sample_body) ∅.
Proof.
  intros fs1.
  assert (Hput : put no_repr sample_handler (bearer "w" long_body) ∅
                 = (inr (set_status 204 new_response), fs1)) by reflexivity.
  apply (proj2 (put_last_writer_wins no_repr sample_handler (bearer "w" long_body) ∅
                  (set_status 204 new_response) fs1 Hput)).
  apply check_token_admitted. reflexivity.
Defined.

(** ** Startup *)

Lemma getitem_setitem_eq k v its : getitem k (setitem k v its) = Some v.
Proof.
  unfold getitem. induction its as [|[k' v'] its IH]; cbn [setitem List.find fst].
  - rewrite String.eqb_refl. reflexivity.
  - destruct (String.eqb k' k) eqn:E; cbn [List.find fst].
    + rewrite String.eqb_refl. reflexivity.
    + rewrite E. exact IH.
Qed.

Lemma getitem_setitem_ne k v its j :
  j <> k -> getitem j (setitem k v its) = getitem j its.
Proof.
  intros Hne. unfold getitem.
  induction its as [|[k' v'] its IH]; cbn [setitem List.find fst].
  - destruct (String.eqb_spec k j); [congruence|reflexivity].
  - destruct (String.eqb_spec k' k) as [->|Hk]; cbn [List.find fst].
    + destruct (String.eqb_spec k j); [congruence|reflexivity].
    + destruct (String.eqb k' j); [reflexivity|exact IH].
Qed.

Lemma build_app_artefacts compile_url limit its its' :
  getitem "artefacts" its' = getitem "artefacts" its ->
  build_app compile_url limit (VDict its') = build_app compile_url limit (VDict its).
Proof. unfold build_app, subscript. intros ->. reflexivity. Qed.

Lemma default_item_server k v its d :
  getitem "server" its = Some (VDict d) ->
  exists its' d',
    default_item k v (VDict its) = inr (VDict its') /\
    getitem "server" its' = Some (VDict d') /\
    getitem k d' = Some (default v (getitem k d)) /\
    (forall k', k' <> k -> getitem k' d' = getitem k' d) /\
    (forall j, j <> "server" -> getitem j its' = getitem j its).
Proof.
  intros Hs. unfold default_item, su_bind, subscript, contains, assign. rewrite Hs.
  destruct (getitem k d) as [x|] eqn:Hk.
  - rewrite bool_decide_true by eauto. cbn [negb].
    exists its, d. rewrite Hk. auto.
  - rewrite bool_decide_false by (intros [? ?]; discriminate). cbn [negb].
    exists (setitem "server" (VDict (setitem k v d)) its), (setitem k v d).
    split; [reflexivity|]. split; [apply getitem_setitem_eq|].
    split; [apply getitem_setitem_eq|]. split.
    + intros k' Hne. apply getitem_setitem_ne, Hne.
    + intros j Hne. apply getitem_setitem_ne, Hne.
Qed.









Lemma default_item_not_mapping k v its server :
  getitem "server" its = Some server ->
  (forall d, server <> VDict d) ->
  default_item k v (VDict its) = inl TypeError \/
  exists t, server = VStr t /\ default_item k v (VDict its) = inr (VDict its).
Proof.
  intros Hs Hnot. unfold default_item. cbn [subscript su_bind]. rewrite Hs. cbn [su_bind].
  destruct server as [|t|n|d]; cbn [contains su_bind]; auto.
  - destruct (bool_decide (is_Some (String.index 0 k t))); cbn [negb assign su_bind]; eauto.
  - exfalso. eapply Hnot. reflexivity.
Qed.

(** X13: when the [server] entry of the configuration is present but not a
    mapping, [run_server] fails and never listens: the defaults are not
    applied.  Unless the entry is a string, as for a [server:] key without
    a value, the failure is a [TypeError]. *)
Theorem run_server_server_not_mapping compile_url limit its server :
  getitem "server" its = Some server ->
  (forall d, server <> VDict d) ->
  exists e,
    run_server compile_url limit (VDict its) = inl e /\
    ((forall t, server <> VStr t) -> e = TypeError).
Proof.
  intros Hs Hnot. unfold run_server. cbn [contains su_bind].
  rewrite Hs, bool_decide_true by eauto. cbn [negb].
  destruct (default_item_not_mapping "port" (VInt 8080) its server Hs Hnot)
    as [->|(t & -> & ->)]; cbn [su_bind]; [eauto|].
  destruct (default_item_not_mapping "host" (VStr "0.0.0.0") its (VStr t) Hs Hnot)
    as [->|(_ & _ & ->)]; cbn [su_bind].
  { exists TypeError. split; [reflexivity|]. intros H. exfalso. eapply H. reflexivity. }
  destruct (build_app compile_url limit (VDict its)) as [e|routes]; cbn [su_bind subscript].
  - exists e. split; [reflexivity|]. intros H. exfalso. eapply H. reflexivity.
  - rewrite Hs. cbn [su_bind].
    exists TypeError. split; [reflexivity|]. intros H. exfalso. eapply H. reflexivity.
Qed.

Lemma run_server_server_not_mapping_witness :
  run_server sample_compile_url 3 (VDict [("server", VNone); ("artefacts", VDict sample_config)]) = inl TypeError.
Proof.
  destruct (run_server_server_not_mapping sample_compile_url 3
              [("server", VNone); ("artefacts", VDict sample_config)] VNone)
    as (e & Hrun & He).
  - reflexivity.
  - discriminate.
  - rewrite Hrun, He; [reflexivity|discriminate].
Defined.

(** X14: with a [server] entry that is missing or a mapping, startup fails
    before listening when the configuration has no [artefacts] entry (a
    [KeyError]) and when that entry is not a mapping, as for an
    [artefacts:] key without a value (an [AttributeError]). *)
Theorem run_server_needs_artefacts compile_url limit its :
  server_ok its = true ->
  (getitem "artefacts" its = None ->
   run_server compile_url limit (VDict its) = inl (Raised (KeyError "artefacts"))) /\
  (forall v,
     getitem "artefacts" its = Some v -> (forall d, v <> VDict d) ->
     run_server compile_url limit (VDict its) = inl (Raised AttributeError)).
Proof.
  intros Hok.
  assert (Hrun : forall e, build_app compile_url limit (VDict its) = inl e ->
                 run_server compile_url limit (VDict its) = inl e).
  { intros e Happ. unfold server_ok in Hok. unfold run_server. cbn [contains su_bind].
    destruct (getitem "server" its) as [server|] eqn:Hs.
    - destruct server as [| | |d]; try discriminate.
      rewrite bool_decide_true by eauto. cbn [negb].
      destruct (default_item_server "port" (VInt 8080) its d Hs)
        as (its1 & d1 & -> & Hs1 & _ & _ & Hj1).
      cbn [su_bind].
      destruct (default_item_server "host" (VStr "0.0.0.0") its1 d1 Hs1)
        as (its2 & d2 & -> & _ & _ & _ & Hj2).
      cbn [su_bind].
      rewrite (build_app_artefacts compile_url limit its its2), Happ
        by (rewrite Hj2, Hj1 by discriminate; reflexivity).
      reflexivity.
    - rewrite bool_decide_false by (intros [? ?]; discriminate). cbn [negb assign su_bind].
      rewrite (build_app_artefacts compile_url limit its), Happ
        by (apply getitem_setitem_ne; discriminate).
      reflexivity. }
  split.
  - intros Ha. apply Hrun. unfold build_app, subscript. rewrite Ha. reflexivity.
  - intros v Ha Hv. apply Hrun. unfold build_app, subscript. rewrite Ha.
    destruct v as [| | |d]; try reflexivity. exfalso. eapply Hv. reflexivity.
Qed.

Lemma run_server_needs_artefacts_witness :
  run_server sample_compile_url 3 (VDict [("server", VDict [("port", VInt 80)]); ("artefacts", VNone)])
  = inl (Raised AttributeError).
Proof.
  apply (proj2 (run_server_needs_artefacts sample_compile_url 3
                  [("server", VDict [("port", VInt 80)]); ("artefacts", VNone)] eq_refl)
               VNone).
  - reflexivity.
  - discriminate.
Defined.

(** ** Settings objects of the routes *)

Lemma keeps_h_build_urls_fresh h0 limit :
  forall config base_url base_settings,
    keeps h0 (h_build_urls limit config base_url base_settings)
      (Forall (fun r => fresh_ref h0 (h_settings r))).
Proof.
  induction limit as [|limit IH]; intros config base_url base_settings;
    cbn [h_build_urls]; [apply keeps_raise|].
  eapply keeps_bind; [apply keeps_h_items|]. intros config_items _.
  eapply keeps_bind; [apply keeps_h_truthy|]. intros inherited _.
  eapply keeps_bind with (Q := fresh_ref h0).
  - destruct inherited; [|apply keeps_h_dict].
    eapply keeps_bind.
    { apply keeps_h_deepcopy. intros l y H. rewrite lookup_empty in H. discriminate. }
    intros c [Hc _].
    eapply keeps_bind; [apply keeps_h_dict|]. intros own _.
    eapply keeps_bind; [apply keeps_h_update, Hc|].
    intros _ _. apply keeps_ret, Hc.
  - intros settings Hsettings.
    apply (keeps_for_each h0 _ _ (Forall (fun r => fresh_ref h0 (h_settings r))));
      [|constructor].
    intros urls [key value] Hurls.
    eapply keeps_bind; [apply keeps_h_keys|]. intros ks _.
    destruct (filter (fun k => startswith "_" k = false) ks).
    + apply keeps_ret. apply Forall_app. split; [exact Hurls|].
      repeat constructor. exact Hsettings.
    + eapply keeps_bind; [apply IH|]. intros more Hmore. apply keeps_ret.
      apply Forall_app. split; assumption.
Qed.

(** X15: the settings dictionary of every route [build_urls] returns is an
    object created by the call: no route holds the caller's [base_settings],
    or a dictionary of the configuration, as its settings. *)
Theorem h_build_urls_fresh_settings limit config base_url base_settings h routes h' :
  h_build_urls limit config base_url base_settings h = (inr routes, h') ->
  Forall (fun r => forall l, h_settings r = PRef l -> h !! l = None) routes.
Proof.
  intros Hrun.
  destruct (keeps_h_build_urls_fresh h limit config base_url base_settings h _ h'
              (reflexivity _) Hrun) as [_ Hfresh].
  exact (Hfresh routes eq_refl).
Qed.

Lemma h_build_urls_fresh_settings_witness :
  exists routes h',
    h_build_urls 3 (PRef 1) "" (PRef 4) sample_heap = (inr routes, h') /\
    map h_url routes = ["/docs/a.pdf"; "/docs/b.pdf"; "/x.bin"] /\
    Forall (fun r => forall l, h_settings r = PRef l -> sample_heap !! l = None) routes.
Proof.
  assert (exists routes h',
    h_build_urls 3 (PRef 1) "" (PRef 4) sample_heap = (inr routes, h') /\
    map h_url routes = ["/docs/a.pdf"; "/docs/b.pdf"; "/x.bin"])
    as (routes & h' & Hrun & Hurl).
  { assert (exists routes,
      (h_build_urls 3 (PRef 1) "" (PRef 4) sample_heap).1 = inr routes /\
      map h_url routes = ["/docs/a.pdf"; "/docs/b.pdf"; "/x.bin"])
      as (routes & Hfst & Hurl) by (vm_compute; eexists; split; reflexivity).
    exists routes, (h_build_urls 3 (PRef 1) "" (PRef 4) sample_heap).2.
    split; [|exact Hurl]. rewrite <- Hfst. apply surjective_pairing. }
  exists routes, h'. split; [exact Hrun|]. split; [exact Hurl|].
  exact (h_build_urls_fresh_settings 3 (PRef 1) "" (PRef 4) sample_heap routes h' Hrun).
Defined.

(** ** The two embeddings of the route builder agree *)

Lemma rep_dict h its v :
  rep h (VDict its) v <->
  exists l pits, v = PRef l /\ h !! l = Some pits /\ Forall2 (item_rep h) its pits.
Proof.
  cbn [rep].
  assert (Hall : forall its pits,
    (fix all (its : list (string * value)) (pits : list (string * pyval)) : Prop :=
       match its, pits with
       | [], [] => True
       | (k, t) :: its', (k', pv) :: pits' => k = k' /\ rep h t pv /\ all its' pits'
       | _, _ => False
       end) its pits <-> Forall2 (item_rep h) its pits).
  { clear. induction its as [|[k t] its IH]; intros [|[k' pv] pits].
    - split; [constructor|auto].
    - split; [intros []|intros H; inversion H].
    - split; [intros []|intros H; inversion H].
    - rewrite IH. split.
      + intros (-> & Ht & Hrest). constructor; [split; [reflexivity|exact Ht]|exact Hrest].
      + intros H. inversion H as [|? ? ? ? [Hk Ht] Hrest]; subst. auto. }
  split; intros (l & pits & Hv & Hl & H); exists l, pits; rewrite Hall in *; auto.
Qed.

Lemma rep_mono_depth (h h' : heap) n :
  h ⊆ h' -> forall t v, depth t <= n -> rep h t v -> rep h' t v.
Proof.
  intros Hsub. induction n as [|n IH]; intros t v Hd.
  - destruct t; try (simpl; auto; fail). simpl in Hd. lia.
  - destruct t as [| | |its]; try (simpl; auto; fail).
    rewrite !rep_dict. intros (l & pits & -> & Hl & Hall).
    exists l, pits. split; [reflexivity|]. split; [eapply lookup_weaken; eassumption|].
    apply depth_children in Hd. clear Hl.
    induction Hall as [|[k t] [k' pv] its pits [Hk Ht] _ IHall]; constructor.
    + apply Forall_cons in Hd as [Hdt _]. split; [exact Hk|]. apply IH; assumption.
    + apply Forall_cons in Hd as [_ Hd]. apply IHall, Hd.
Qed.

Lemma rep_mono (h h' : heap) t v : h ⊆ h' -> rep h t v -> rep h' t v.
Proof. intros Hsub. eapply rep_mono_depth; [exact Hsub|reflexivity]. Qed.

Lemma srep_mono (h h' : heap) d v : h ⊆ h' -> srep h d v -> srep h' d v.
Proof.
  intros Hsub (l & pits & -> & Hl & H). exists l, pits.
  split; [reflexivity|]. split; [eapply lookup_weaken; eassumption|exact H].
Qed.

Lemma route_rep_mono (h h' : heap) hr r : h ⊆ h' -> route_rep h hr r -> route_rep h' hr r.
Proof.
  intros Hsub (Hu & Hp & Hs). split; [exact Hu|]. split; [exact Hp|].
  eapply srep_mono; eassumption.
Qed.

Lemma passoc_assoc_set k k' v d :
  passoc k (assoc_set k' v d) = if String.eqb k' k then Some v else passoc k d.
Proof.
  unfold passoc. induction d as [|[k0 v0] d IH]; cbn [assoc_set List.find fst].
  - destruct (String.eqb k' k); reflexivity.
  - destruct (String.eqb_spec k0 k') as [->|Hne]; cbn [List.find fst].
    + destruct (String.eqb k' k); reflexivity.
    + destruct (String.eqb_spec k0 k) as [->|_].
      * destruct (String.eqb_spec k' k); [congruence|reflexivity].
      * exact IH.
Qed.

Lemma keys_assoc_set k v d :
  NoDup (map fst d) -> NoDup (map fst (assoc_set k v d)) /\
  forall k0, k0 ∈ map fst (assoc_set k v d) -> k0 = k \/ k0 ∈ map fst d.
Proof.
  induction d as [|[k1 v1] d IH]; intros Hnd; cbn [assoc_set map fst].
  - split; [apply NoDup_singleton|]. intros k0 H. apply list_elem_of_singleton in H. auto.
  - simpl in Hnd. apply NoDup_cons in Hnd as [Hk1 Hnd].
    destruct (String.eqb_spec k1 k) as [->|Hne]; cbn [map fst].
    + split; [apply NoDup_cons; auto|]. auto.
    + destruct (IH Hnd) as [IHnd IHin]. split.
      * apply NoDup_cons. split; [|exact IHnd].
        intros H. apply IHin in H as [H|H]; [congruence|contradiction].
      * intros k0 H. apply elem_of_cons in H as [->|H]; [right; left|].
        apply IHin in H as [H|H]; [auto|right; right; exact H].
Qed.

Lemma assign_all_ok pairs :
  forall acc,
    NoDup (map fst acc) -> Forall (fun kv => scalar kv.2 = true) acc ->
    Forall (fun kv => scalar kv.2 = true) pairs ->
    NoDup (map fst (assign_all pairs acc)) /\
    Forall (fun kv => scalar kv.2 = true) (assign_all pairs acc).
Proof.
  unfold assign_all. induction pairs as [|[k v] pairs IH]; intros acc Hnd Hsc Hp; [auto|].
  apply Forall_cons in Hp as [Hv Hp]. cbn [fold_left fst snd]. apply IH; [| |exact Hp].
  - apply keys_assoc_set, Hnd.
  - clear -Hsc Hv. induction acc as [|[k1 v1] acc IHa]; cbn [assoc_set].
    + repeat constructor. exact Hv.
    + apply Forall_cons in Hsc as [H1 Hsc]. destruct (String.eqb k1 k).
      * constructor; assumption.
      * constructor; [exact H1|apply IHa, Hsc].
Qed.

Lemma passoc_cons k k' v' d :
  passoc k ((k', v') :: d) = if String.eqb k' k then Some v' else passoc k d.
Proof. unfold passoc. cbn [List.find fst]. destruct (String.eqb k' k); reflexivity. Qed.

Lemma passoc_None k d : k ∉ map fst d -> passoc k d = None.
Proof.
  intros Hk. unfold passoc. destruct (List.find _ d) as [[k2 v2]|] eqn:Hf; [|reflexivity].
  exfalso. apply Hk. apply find_some in Hf as [Hin Heq]. cbn [fst] in Heq.
  apply String.eqb_eq in Heq as ->.
  apply list_elem_of_fmap. exists (k, v2). split; [reflexivity|].
  apply list_elem_of_In, Hin.
Qed.

Lemma passoc_assign_all pairs :
  forall acc k,
    NoDup (map fst pairs) ->
    passoc k (assign_all pairs acc) =
    match passoc k pairs with
    | Some v => Some v
    | None => passoc k acc
    end.
Proof.
  unfold assign_all. induction pairs as [|[k' v'] pairs IH]; intros acc k Hnd; [reflexivity|].
  simpl in Hnd. apply NoDup_cons in Hnd as [Hk Hnd].
  cbn [fold_left fst snd]. rewrite (IH _ _ Hnd), passoc_assoc_set, passoc_cons.
  destruct (String.eqb_spec k' k) as [->|Hne]; [|reflexivity].
  rewrite (passoc_None _ _ Hk). reflexivity.
Qed.

Lemma setitem_loop pairs :
  forall acc (h : heap) l,
    st_for_each pairs (fun (_ : unit) kv => h_setitem (PRef l) kv.1 kv.2) tt
      (<[l := acc]> h)
    = (inr tt, <[l := assign_all pairs acc]> h).
Proof.
  induction pairs as [|[k v] pairs IH]; intros acc h l; [reflexivity|].
  cbn [st_for_each]. unfold st_bind, h_setitem at 1.
  rewrite lookup_insert_eq, insert_insert_eq. apply IH.
Qed.

Lemma h_dict_run pairs (h : heap) :
  h_dict pairs h
  = (inr (PRef (fresh (dom h))), <[fresh (dom h) := assign_all pairs []]> h).
Proof.
  unfold h_dict, st_bind, h_new. rewrite setitem_loop. reflexivity.
Qed.

Lemma h_update_run (h : heap) y o acc its :
  h !! y = Some acc -> h !! o = Some its ->
  h_update (PRef y) (PRef o) h = (inr tt, <[y := assign_all its acc]> h).
Proof.
  intros Hy Ho. unfold h_update, st_bind, h_items. rewrite Ho.
  rewrite <- (insert_id h y acc Hy) at 1. apply setitem_loop.
Qed.

Lemma h_deepcopy_scalar limit x memo :
  scalar x = true -> h_deepcopy limit x memo = st_ret (x, memo).
Proof. destruct limit, x; try discriminate; reflexivity. Qed.

Lemma h_deepcopy_run limit (h : heap) l pits :
  h !! l = Some pits ->
  Forall (fun kv => scalar kv.2 = true) pits ->
  h_deepcopy (S limit) (PRef l) ∅ h
  = (inr (PRef (fresh (dom h)), {[ l := fresh (dom h) ]}),
     <[fresh (dom h) := assign_all pits []]> h).
Proof.
  intros Hl Hsc. cbn [h_deepcopy]. rewrite lookup_empty.
  unfold st_bind at 1, h_items. rewrite Hl.
  unfold st_bind at 1, h_new. unfold st_bind at 1.
  rewrite insert_empty.
  set (y := fresh (dom h)). set (memo := ({[ l := y ]} : gmap loc loc)).
  enough (forall acc,
    st_for_each pits (fun memo kv =>
      (c <- h_deepcopy limit kv.2 memo ;;
       _ <- h_setitem (PRef y) kv.1 c.1 ;;
       st_ret c.2)%comp) memo (<[y := acc]> h)
    = (inr memo, <[y := assign_all pits acc]> h)) as Hloop.
  { rewrite Hloop. reflexivity. }
  clear Hl. induction Hsc as [|[k v] pits Hv _ IH]; intros acc; [reflexivity|].
  cbn [st_for_each]. unfold st_bind at 1. cbn [snd fst] in *.
  rewrite (h_deepcopy_scalar _ _ _ Hv). unfold st_bind at 1, st_ret at 1.
  cbn [fst snd]. unfold st_bind at 1, h_setitem at 1.
  rewrite lookup_insert_eq, insert_insert_eq. unfold st_ret at 1. apply IH.
Qed.

Lemma dict_rel l pl :
  Forall2 (fun (kt : string * value) (kp : string * pyval) =>
             kt.1 = kp.1 /\ kt.2 = to_value kp.2) l pl ->
  forall (acc : settings) pacc,
    (forall k, acc !! k = to_value <$> passoc k pacc) ->
    forall k,
      fold_left (fun d kv => <[kv.1 := kv.2]> d) l acc !! k
      = to_value <$> passoc k (assign_all pl pacc).
Proof.
  unfold assign_all.
  induction 1 as [|[k1 t] [k2 pv] l pl [Hk Ht] _ IH]; intros acc pacc Hacc k; [apply Hacc|].
  cbn [fst snd] in *. subst. cbn [fold_left fst snd]. apply IH. intros k0.
  rewrite passoc_assoc_set, lookup_insert.
  destruct (String.eqb_spec k2 k0) as [->|Hne].
  - rewrite decide_True by reflexivity. reflexivity.
  - rewrite decide_False by exact Hne. apply Hacc.
Qed.

Lemma own_settings_rel h cfg pits :
  Forall2 (item_rep h) cfg pits ->
  scalar_settings (VDict cfg) = true ->
  Forall2 (fun (kt : string * value) (kp : string * pyval) =>
             kt.1 = kp.1 /\ kt.2 = to_value kp.2)
    (own_settings cfg) (h_own_settings pits) /\
  Forall (fun kv => scalar kv.2 = true) (h_own_settings pits).
Proof.
  unfold own_settings, h_own_settings. cbn [scalar_settings].
  induction 1 as [|[k t] [k' pv] cfg pits [Hk Ht] _ IH]; intros Hsc.
  - split; constructor.
  - cbn [fst snd forallb] in *. subst k'. apply andb_true_iff in Hsc as [Hc Hsc].
    specialize (IH Hsc). rewrite !filter_cons. cbn [fst].
    destruct (startswith "_" k) eqn:Ek.
    + rewrite !decide_True by reflexivity. cbn [map fst snd].
      assert (t = to_value pv /\ scalar pv = true) as [Hv Hs].
      { destruct t; try discriminate; simpl in Ht; subst; auto. }
      destruct IH as [IH1 IH2]. split; constructor; auto.
    + rewrite !decide_False by discriminate. exact IH.
Qed.

Lemma artefacts_rel h cfg pits :
  Forall2 (item_rep h) cfg pits ->
  Forall2 (item_rep h)
    (filter (fun kv => startswith "_" kv.1 = false) cfg)
    (filter (fun kv => startswith "_" kv.1 = false) pits).
Proof.
  induction 1 as [|[k t] [k' pv] cfg pits [Hk Ht] _ IH]; [constructor|].
  cbn [fst snd] in *. subst k'. rewrite !filter_cons. cbn [fst].
  destruct (decide (startswith "_" k = false)); [|exact IH].
  constructor; [split; [reflexivity|exact Ht]|exact IH].
Qed.

Lemma srep_truthy h d l pits :
  h !! l = Some pits -> srep h d (PRef l) ->
  Nat.eqb (length pits) 0 = Nat.eqb (size d) 0.
Proof.
  intros Hl (l' & pits' & [= <-] & Hl' & _ & _ & Hd).
  rewrite Hl in Hl'. injection Hl' as <-.
  destruct pits as [|[k v] pits]; cbn [length].
  - assert (d = ∅) as ->; [|reflexivity].
    apply map_eq. intros k. rewrite Hd, lookup_empty. reflexivity.
  - symmetry. apply Nat.eqb_neq. intros Hsize. apply map_size_empty_iff in Hsize.
    specialize (Hd k). rewrite passoc_cons, String.eqb_refl, Hsize, lookup_empty in Hd.
    discriminate.
Qed.

Lemma h_build_urls_S limit config base_url base_settings :
  h_build_urls (S limit) config base_url base_settings =
  (config_items <- h_items config ;;
   inherited <- h_truthy base_settings ;;
   settings <- hsettings limit base_settings config_items inherited ;;
   st_for_each (filter (fun kv => startswith "_" kv.1 = false) config_items)
     (hvisit limit base_url settings) [])%comp.
Proof. reflexivity. Qed.

Lemma own_settings_srep (h : heap) cfg pits :
  Forall2 (item_rep h) cfg pits ->
  scalar_settings (VDict cfg) = true ->
  srep (<[fresh (dom h) := assign_all (h_own_settings pits) []]> h)
       (dict (own_settings cfg)) (PRef (fresh (dom h))).
Proof.
  intros Hrep Hsc. destruct (own_settings_rel _ _ _ Hrep Hsc) as [Hrel Hscal].
  destruct (assign_all_ok (h_own_settings pits) [] (NoDup_nil_2) (Forall_nil_2 _) Hscal)
    as [Hnd Hs].
  eexists _, _. split; [reflexivity|]. split; [apply lookup_insert_eq|].
  split; [exact Hnd|]. split; [exact Hs|].
  intros k. unfold dict. apply (dict_rel _ _ Hrel). intros k0. apply lookup_empty.
Qed.

Lemma fresh_None (h : heap) : h !! fresh (dom h) = None.
Proof. apply not_elem_of_dom, is_fresh. Qed.

Lemma hsettings_refines limit (h : heap) cfg pits bs bsv b sv h1 :
  Forall2 (item_rep h) cfg pits ->
  scalar_settings (VDict cfg) = true ->
  inherits h bs bsv ->
  h_truthy bsv h = (inr b, h) ->
  hsettings limit bsv pits b h = (inr sv, h1) ->
  h ⊆ h1 /\ srep h1 (node_settings cfg bs) sv.
Proof.
  intros Hrep Hsc Hinh Htruthy Hrun.
  assert (Hplain : b = false -> node_settings cfg bs = dict (own_settings cfg) ->
                   h ⊆ h1 /\ srep h1 (node_settings cfg bs) sv).
  { intros -> ->. rewrite h_dict_run in Hrun. injection Hrun as <- <-.
    split; [apply insert_subseteq, fresh_None|].
    apply own_settings_srep; assumption. }
  destruct bs as [d|]; cbn [inherits] in Hinh.
  - pose proof Hinh as (lb & pb & -> & Hlb & Hndb & Hscb & Hd).
    cbn [h_truthy] in Htruthy. rewrite Hlb in Htruthy. injection Htruthy as <-.
    rewrite (srep_truthy _ _ _ _ Hlb Hinh) in *.
    destruct (Nat.eqb (size d) 0) eqn:Hsize; cbn [negb] in *.
    { apply Hplain; [reflexivity|]. unfold node_settings, truthy. rewrite Hsize. reflexivity. }
    destruct limit as [|limit].
    { cbn [h_deepcopy] in Hrun. rewrite lookup_empty in Hrun. discriminate. }
    unfold st_bind at 1 in Hrun. rewrite (h_deepcopy_run _ _ _ _ Hlb Hscb) in Hrun.
    set (y := fresh (dom h)) in *. set (ha := <[y := assign_all pb []]> h) in *.
    unfold st_bind at 1 in Hrun. rewrite h_dict_run in Hrun.
    set (o := fresh (dom ha)) in *.
    set (X := assign_all (h_own_settings pits) []) in *.
    assert (Hyo : o <> y).
    { intros Heq. pose proof (fresh_None ha) as Hf. fold o in Hf.
      rewrite Heq in Hf. unfold ha in Hf. rewrite lookup_insert_eq in Hf. discriminate. }
    cbn [fst] in Hrun. unfold st_bind at 1 in Hrun.
    rewrite (h_update_run _ y o (assign_all pb []) X) in Hrun;
      [|rewrite lookup_insert_ne by exact Hyo; apply lookup_insert_eq
       |apply lookup_insert_eq].
    unfold st_ret in Hrun. injection Hrun as <- <-.
    assert (Hy : h !! y = None) by apply fresh_None.
    assert (Ho : h !! o = None).
    { eapply lookup_weaken_None; [apply (fresh_None ha)|]. apply insert_subseteq, Hy. }
    split.
    + apply insert_subseteq_r; [exact Hy|]. apply insert_subseteq_r; [exact Ho|].
      apply insert_subseteq, Hy.
    + destruct (own_settings_rel _ _ _ Hrep Hsc) as [Hrel Hscal].
      destruct (assign_all_ok (h_own_settings pits) [] (NoDup_nil_2) (Forall_nil_2 _) Hscal)
        as [HndX HsX]. fold X in HndX, HsX.
      destruct (assign_all_ok pb [] (NoDup_nil_2) (Forall_nil_2 _) Hscb) as [HndY HsY].
      destruct (assign_all_ok X _ HndY HsY HsX) as [Hnd Hs].
      eexists _, _. split; [reflexivity|]. split; [apply lookup_insert_eq|].
      split; [exact Hnd|]. split; [exact Hs|].
      intros k. unfold node_settings, truthy. rewrite Hsize. cbn [negb].
      unfold update, deepcopy. rewrite lookup_union.
      rewrite (passoc_assign_all X _ k HndX), (passoc_assign_all pb [] k Hndb).
      unfold dict. rewrite (dict_rel _ _ Hrel ∅ []) by (intros; apply lookup_empty).
      fold X. rewrite Hd.
      destruct (passoc k X), (passoc k pb); reflexivity.
  - subst bsv. cbn [h_truthy] in Htruthy. injection Htruthy as <-.
    apply Hplain; reflexivity.
Qed.

Lemma scalar_settings_children its :
  scalar_settings (VDict its) = true ->
  Forall (fun kv => startswith "_" kv.1 = false -> scalar_settings kv.2 = true) its.
Proof.
  cbn [scalar_settings]. rewrite forallb_forall. intros H. apply List.Forall_forall.
  intros [k c] Hin E. specialize (H _ Hin). cbn [fst snd] in *.
  rewrite E in H. exact H.
Qed.

Lemma h_keys_rep (h : heap) t v ks h' :
  rep h t v -> h_keys v h = (inr ks, h') ->
  h' = h /\ exists its, t = VDict its /\ ks = map fst its.
Proof.
  intros Hrep. unfold h_keys, st_bind, h_items.
  destruct t as [| | |its].
  - simpl in Hrep. subst. discriminate.
  - simpl in Hrep. subst. discriminate.
  - simpl in Hrep. subst. discriminate.
  - apply rep_dict in Hrep as (l & pits & -> & Hl & Hall). rewrite Hl.
    intros [= <- <-]. split; [reflexivity|]. exists its. split; [reflexivity|].
    clear Hl. induction Hall as [|[k t] [k' pv] its pits [Hk _] _ IH]; [reflexivity|].
    cbn [map fst] in *. rewrite Hk, IH. reflexivity.
Qed.

Lemma h_build_urls_refines limit :
  forall config cfg base_url bsv bs (h : heap) hroutes h',
    rep h (VDict cfg) config ->
    scalar_settings (VDict cfg) = true ->
    inherits h bs bsv ->
    h_build_urls limit config base_url bsv h = (inr hroutes, h') ->
    exists routes,
      build_urls limit cfg base_url bs = inr routes /\
      Forall2 (route_rep h') hroutes routes.
Proof.
  induction limit as [|limit IH];
    intros config cfg base_url bsv bs h hroutes h' Hrep Hsc Hinh Hrun; [discriminate|].
  rewrite h_build_urls_S in Hrun. rewrite build_urls_S.
  pose proof Hrep as Hrep0.
  apply rep_dict in Hrep as (l0 & pits & -> & Hl0 & Hall).
  unfold st_bind at 1, h_items in Hrun. rewrite Hl0 in Hrun.
  unfold st_bind at 1 in Hrun.
  destruct (h_truthy bsv h) as [[e|b] hb] eqn:Htruthy; [discriminate|].
  assert (hb = h) as ->.
  { unfold h_truthy in Htruthy. destruct bsv; try congruence.
    destruct (h !! l); congruence. }
  unfold st_bind at 1 in Hrun.
  destruct (hsettings limit bsv pits b h) as [[e|sv] h1] eqn:Hset; [discriminate|].
  destruct (hsettings_refines _ _ _ _ _ _ _ _ _ Hall Hsc Hinh Htruthy Hset) as [Hsub Hsrep].
  set (st := node_settings cfg bs) in *.
  pose proof (artefacts_rel _ _ _ Hall) as Harts.
  assert (Hchildren : Forall (fun kv : string * value => scalar_settings kv.2 = true)
                        (filter (fun kv => startswith "_" kv.1 = false) cfg)).
  { apply List.Forall_forall. intros kv Hin. apply list_elem_of_In in Hin.
    apply list_elem_of_filter in Hin as [Hk Hin].
    pose proof (scalar_settings_children _ Hsc) as Hch.
    rewrite List.Forall_forall in Hch. apply Hch; [apply list_elem_of_In, Hin|exact Hk]. }
  enough (Hloop : forall arts parts,
    Forall2 (item_rep h) arts parts ->
    Forall (fun kv : string * value => scalar_settings kv.2 = true) arts ->
    forall urls hurls (hi : heap) hroutes h',
      h1 ⊆ hi ->
      Forall2 (route_rep hi) hurls urls ->
      st_for_each parts (hvisit limit base_url sv) hurls hi = (inr hroutes, h') ->
      exists routes,
        for_each arts (visit limit base_url st) urls = inr routes /\
        Forall2 (route_rep h') hroutes routes).
  { eapply (Hloop _ _ Harts Hchildren [] [] h1); [reflexivity|constructor|exact Hrun]. }
  clear Hrun Harts Hchildren hroutes h'.
  induction 1 as [|[k t] [k' pv] arts parts [Hk Ht] _ IHl];
    intros Hch urls hurls hi hroutes h' Hhi Hacc Hrun.
  - cbn [st_for_each] in Hrun. injection Hrun as <- <-. exists urls. split; [reflexivity|exact Hacc].
  - cbn [fst snd] in Hk, Ht. subst k'.
    apply Forall_cons in Hch as [Hct Hch]. cbn [snd] in Hct.
    assert (Hrep_i : rep hi t pv).
    { eapply rep_mono; [|exact Ht]. etransitivity; eassumption. }
    cbn [st_for_each for_each] in *. unfold st_bind at 1 in Hrun.
    unfold st_bind at 1 in Hrun.
    destruct (h_keys pv hi) as [[e|ks] hk] eqn:Hkeys; [discriminate|].
    destruct (h_keys_rep _ _ _ _ _ Hrep_i Hkeys) as (-> & its & -> & ->).
    cbn [keys bind ret].
    destruct (filter (fun k0 => startswith "_" k0 = false) (map fst its)) as [|k1 ks].
    + unfold st_ret at 1 in Hrun. cbn [bind ret].
      eapply (IHl Hch _ _ hi); [exact Hhi| |exact Hrun].
      apply Forall2_app; [exact Hacc|]. repeat constructor.
      eapply srep_mono; eassumption.
    + cbn [items bind ret]. unfold st_bind at 1 in Hrun.
      destruct (h_build_urls limit pv (base_url +:+ "/" +:+ k) sv hi)
        as [[e|more] hn] eqn:Hsub_run; [discriminate|].
      destruct (IH pv its (base_url +:+ "/" +:+ k) sv (Some st) hi more hn Hrep_i Hct)
        as (rmore & -> & Hmore); [eapply srep_mono; eassumption|exact Hsub_run|].
      assert (Hgrow : hi ⊆ hn).
      { destruct (keeps_h_build_urls hi limit pv (base_url +:+ "/" +:+ k) sv hi _ hn
                    (reflexivity _) Hsub_run) as [Hg _]. exact Hg. }
      unfold st_ret at 1 in Hrun. cbn [bind ret].
      eapply (IHl Hch _ _ hn); [etransitivity; eassumption| |exact Hrun].
      apply Forall2_app; [|exact Hmore].
      eapply Forall2_impl; [exact Hacc|]. intros hr r. apply route_rep_mono, Hgrow.
Qed.

(** X16: the route builder over the store and the route builder over
    values agree.  When the store holds the configuration, with scalars
    under its setting keys, and the inherited settings, every list of
    routes the first returns is the list the second returns: the same URLs
    and paths in the same order, and as settings objects that hold the
    settings of the second. *)
Theorem h_build_urls_agrees limit config cfg base_url bsv bs h hroutes h' :
  rep h (VDict cfg) config ->
  scalar_settings (VDict cfg) = true ->
  inherits h bs bsv ->
  h_build_urls limit config base_url bsv h = (inr hroutes, h') ->
  exists routes,
    build_urls limit cfg base_url bs = inr routes /\
    Forall2 (route_rep h') hroutes routes.
Proof. apply h_build_urls_refines. Qed.

Lemma sample_heap_rep : rep sample_heap (VDict sample_config) (PRef 1).
Proof.
  apply rep_dict. eexists 1%positive, _. split; [reflexivity|]. split; [reflexivity|].
  repeat constructor; cbn [snd].
  apply rep_dict. eexists 2%positive, _. split; [reflexivity|]. split; [reflexivity|].
  repeat constructor; cbn [snd].
  - apply rep_dict. eexists 3%positive, _. split; [reflexivity|]. split; [reflexivity|].
    constructor.
  - apply rep_dict. eexists 4%positive, _. split; [reflexivity|]. split; [reflexivity|].
    repeat constructor.
  - apply rep_dict. eexists 3%positive, _. split; [reflexivity|]. split; [reflexivity|].
    constructor.
Defined.

Lemma h_build_urls_agrees_witness :
  exists hroutes h' routes,
    h_build_urls 3 (PRef 1) "" PNone sample_heap = (inr hroutes, h') /\
    build_urls 3 sample_config "" None = inr routes /\
    Forall2 (route_rep h') hroutes routes.
Proof.
  assert (exists hroutes,
    (h_build_urls 3 (PRef 1) "" PNone sample_heap).1 = inr hroutes)
    as (hroutes & Hfst) by (vm_compute; eexists; reflexivity).
  assert (Hrun : h_build_urls 3 (PRef 1) "" PNone sample_heap
                 = (inr hroutes, (h_build_urls 3 (PRef 1) "" PNone sample_heap).2)).
  { rewrite <- Hfst. apply surjective_pairing. }
  destruct (h_build_urls_agrees 3 (PRef 1) sample_config "" PNone None sample_heap
              hroutes _ sample_heap_rep eq_refl eq_refl Hrun) as (routes & Hpure & Hrel).
  eexists hroutes, _, routes. split; [exact Hrun|]. split; [exact Hpure|exact Hrel].
Defined.

(** ** Inheritance along a chain *)

(** X17: in a configuration with unique keys, each setting of the route of
    a leaf is the value set at the nearest directory node above the leaf
    that has this setting key, and the inherited value, if any, when no
    directory above the leaf has it. *)
Theorem settings_along_lookup chain :
  forall config base_settings k,
    unique_keys (VDict config) ->
    settings_along config chain base_settings !! k =
    setting_along config chain k (base_settings ≫= (fun d => d !! k)).
Proof.
  induction chain as [|key chain IH]; intros config base_settings k Hu;
    pose proof (unique_keys_children _ Hu) as [Hnd Hch];
    cbn [settings_along setting_along].
  - apply node_settings_lookup, Hnd.
  - destruct chain as [|key2 chain]; [apply node_settings_lookup, Hnd|].
    destruct (getitem key config) as [c|] eqn:Hget; [|apply node_settings_lookup, Hnd].
    destruct c as [| | |sub]; try (apply node_settings_lookup, Hnd).
    rewrite IH.
    + cbn [mbind option_bind]. rewrite (node_settings_lookup _ _ _ Hnd). reflexivity.
    + rewrite List.Forall_forall in Hch.
      apply (Hch (key, VDict sub)), list_elem_of_In, getitem_elem, Hget.
Qed.

Lemma settings_along_lookup_witness :
  settings_along sample_config ["docs"; "a.pdf"] None !! "read_token" = Some (VStr "r") /\
  settings_along sample_config ["docs"; "a.pdf"] None !! "base_directory" = Some (VStr "/srv") /\
  settings_along sample_config ["docs"; "b.pdf"] None !! "write_token" = None.
Proof.
  rewrite !settings_along_lookup by exact sample_config_unique_keys.
  repeat split; reflexivity.
Defined.
